(** * refinitiv-ui: tree node handles, field validation and CDN loaders

    A shallow embedding of
    - [packages/elements/src/tree/managers/tree-node.ts] (the [TreeNode] handle),
    - the [EmailField] form control,
    - [packages/utils/src/loader/cdn-loader.ts] ([CDNLoader]) and the
      [IconLoader] built on the loader package,
    together with the properties the specification states about them.

    JavaScript objects are identified by a reference (a natural number);
    mutable objects are threaded as explicit state. *)

From Stdlib Require Import ZArith Ascii String List Bool Lia.
From stdpp Require Import base option list gmap strings fin_maps.

Local Open Scope string_scope.
Local Open Scope list_scope.

(** ** JavaScript values *)

Module JS.

(** The values a raw item's property or a reflected attribute may hold.
    Numbers in the modelled code are lengths and selection stamps, so they are
    taken to be integers. *)
Inductive value : Type :=
| undefined
| null
| bool (b : Datatypes.bool)
| num (n : Z)
| str (s : string).

#[global] Instance value_eq_dec : EqDecision value.
Proof. solve_decision. Defined.

(** [!!v]: the ToBoolean coercion. *)
Definition to_boolean (v : value) : Datatypes.bool :=
  match v with
  | undefined | null => false
  | bool b => b
  | num n => negb (n =? 0)%Z
  | str s => negb (String.eqb s "")
  end.

(** [a === b] on the values above. *)
Definition strict_eq (a b : value) : Datatypes.bool := bool_decide (a = b).

(** [a !== b]. *)
Definition strict_neq (a b : value) : Datatypes.bool := negb (strict_eq a b).

(** Truthiness of a value typed [string]: [if (s)]. *)
Definition truthy_string (s : string) : Datatypes.bool := negb (String.eqb s "").

End JS.

(** ** EmailField *)

Module EmailField.

(** The reactive properties [EmailField] declares; each property holds what
    the class initialiser or a later assignment put there. *)
Record t : Type := mk {
  multiple : bool;
  pattern : JS.value;     (* string | null *)
  maxLength : JS.value;   (* number | null *)
  minLength : JS.value    (* number | null *)
}.

(** The property initialisers of the class body. *)
Definition create : t :=
  {| multiple := false; pattern := JS.null; maxLength := JS.null; minLength := JS.null |}.

Definition shouldValidate (this : t) : bool :=
  let hasMaxLength := JS.strict_neq (maxLength this) JS.null in
  let hasMinLength := JS.strict_neq (minLength this) JS.null in
  let hasPattern := JS.strict_neq (pattern this) (JS.str "") in
  hasMaxLength || hasMinLength || hasPattern.

End EmailField.


(** ** Promises and Deferred *)

Module Promise.

(** What an observer of a promise can see of it at a given moment. *)
Inductive state (A : Type) : Type :=
| Pending
| Fulfilled (v : A)
| Rejected (reason : JS.value).
Arguments Pending {A}.
Arguments Fulfilled {A} v.
Arguments Rejected {A} reason.

(** The outcome of an async body [f(await p)] for a body [f] that does not
    throw: it is pending while [p] is, and a rejection passes through. *)
Definition await_then {A B} (f : A -> B) (p : state A) : state B :=
  match p with
  | Pending => Pending
  | Fulfilled v => Fulfilled (f v)
  | Rejected r => Rejected r
  end.

End Promise.

Module Deferred.

(** Modelled from the spec: the [Deferred] class ([loader/deferred.ts]) is
    imported by both loaders but is not among the sources, and the
    specification leaves resource loading at its interface.  It is modelled by
    what the loaders call on it ([promise], [resolve], [reject], [isResolved],
    [isPending]): a promise with its two settling functions, which, like every
    promise, settles at most once. *)
Record t (A : Type) : Type := mk { promise : Promise.state A }.
Arguments mk {A} promise.
Arguments promise {A} _.

(** Modelled from the spec: a new [Deferred] of the missing class is pending. *)
Definition create {A} : t A := mk Promise.Pending.

(** Modelled from the spec: [resolve] of the missing [Deferred] class fulfils
    the promise if it is still pending. *)
Definition resolve {A} (v : A) (d : t A) : t A :=
  match promise d with
  | Promise.Pending => mk (Promise.Fulfilled v)
  | _ => d
  end.

(** Modelled from the spec: [reject] of the missing [Deferred] class rejects
    the promise if it is still pending. *)
Definition reject {A} (reason : JS.value) (d : t A) : t A :=
  match promise d with
  | Promise.Pending => mk (Promise.Rejected reason)
  | _ => d
  end.

(** Modelled from the spec: [isResolved] and [isPending] of the missing
    [Deferred] class tell which state the promise is in. *)
Definition isResolved {A} (d : t A) : bool :=
  match promise d with Promise.Fulfilled _ => true | _ => false end.

Definition isPending {A} (d : t A) : bool :=
  match promise d with Promise.Pending => true | _ => false end.

End Deferred.

(** ** IconLoader *)

Module IconLoader.

(** The fields [IconLoader] declares itself.  The response cache it inherits
    from the loader base class plays no part in the prefix handling. *)
Record t : Type := mk {
  cdnPrefix : Deferred.t string;
  _isPrefixSet : bool
}.

Definition create : t := {| cdnPrefix := Deferred.create; _isPrefixSet := false |}.

(** [get isPrefixSet] *)
Definition isPrefixSet (this : t) : bool := _isPrefixSet this.

(** [set isPrefixSet] *)
Definition set_isPrefixSet (value : bool) (this : t) : t :=
  if negb (Bool.eqb (_isPrefixSet this) value)
  then {| cdnPrefix := cdnPrefix this; _isPrefixSet := value |}
  else this.

Definition getCdnPrefix (this : t) : Promise.state string :=
  Deferred.promise (cdnPrefix this).

Definition setCdnPrefix (prefix : string) (this : t) : t :=
  if JS.truthy_string prefix then
    set_isPrefixSet true
      {| cdnPrefix := Deferred.resolve prefix (cdnPrefix this);
         _isPrefixSet := _isPrefixSet this |}
  else this.

(** [getSrc] is async: its result is what the returned promise shows. *)
Definition getSrc (iconName : string) (this : t) : Promise.state string :=
  if JS.truthy_string iconName
  then Promise.await_then (fun prefix => prefix +:+ iconName +:+ ".svg") (getCdnPrefix this)
  else Promise.Fulfilled "".

(** The loader after a series of [setCdnPrefix] calls, oldest first. *)
Definition after_prefixes (prefixes : list string) (this : t) : t :=
  foldl (fun l prefix => setCdnPrefix prefix l) this prefixes.

(** The first non-empty prefix of a series of calls. *)
Definition first_prefix (prefixes : list string) : option string :=
  head (filter (fun p => p <> "") prefixes).

End IconLoader.


(** ** CDNLoader *)

Module CDNLoader.

(** A [Response], as far as the loader builds or reads one. *)
Record Response : Type := mkResponse { status : Z; statusText : string }.

(** What [fetch] may throw into the [catch] of [loadContent]. *)
Inductive thrown : Type :=
| ThrownError (message : string)        (* e instanceof Error *)
| ThrownResponse (r : Response)         (* e instanceof Response *)
| ThrownOther.

(** The identity of a [Promise] object. *)
Definition promise : Type := nat.

(** The loader together with the part of the JavaScript heap it lives on:
    the promises [loadContent] has returned, each either still suspended at
    [await fetch(href)] (an entry of [fetching]) or settled with its response
    (an entry of [settled]). *)
Record t : Type := mk {
  responseCache : gmap string promise;
  cdnPrefix : Deferred.t string;
  fetching : gmap promise string;
  settled : gmap promise Response;
  next_promise : promise
}.

Definition create : t :=
  {| responseCache := ∅; cdnPrefix := Deferred.create;
     fetching := ∅; settled := ∅; next_promise := 0 |}.

Definition isPrefixResolved (this : t) : bool := Deferred.isResolved (cdnPrefix this).

Definition isPrefixPending (this : t) : bool := Deferred.isPending (cdnPrefix this).

Definition getCdnPrefix (this : t) : Promise.state string :=
  Deferred.promise (cdnPrefix this).

Definition setCdnPrefix (prefix : string) (this : t) : t :=
  {| responseCache := responseCache this;
     cdnPrefix := if JS.truthy_string prefix
                  then Deferred.resolve prefix (cdnPrefix this)
                  else Deferred.reject (JS.str "") (cdnPrefix this);
     fetching := fetching this; settled := settled this;
     next_promise := next_promise this |}.

(** [loadContent(href)] up to its [await]: the fetch is started (with its
    abort timer) and the promise of the async call is handed back.  A fetch
    reports its outcome, failure included, by settling the promise it
    returned, so the rest of [loadContent] runs later, as one of the two
    resumptions below. *)
Definition loadContent (href : string) (this : t) : promise * t :=
  let p := next_promise this in
  (p, {| responseCache := responseCache this; cdnPrefix := cdnPrefix this;
         fetching := <[p := href]> (fetching this);
         settled := settled this;
         next_promise := S p |}).

(** [loadContent] resumed after [await fetch(href)] gave [response]. *)
Definition loadContent_fetched (p : promise) (response : Response) (this : t) : t :=
  match fetching this !! p with
  | Some href =>
      {| responseCache := responseCache this; cdnPrefix := cdnPrefix this;
         fetching := delete p (fetching this);
         settled := <[p := response]> (settled this);
         next_promise := next_promise this |}
  | None => this
  end.

Definition errorMessage (e : thrown) : string :=
  match e with
  | ThrownError message => message
  | ThrownResponse r => statusText r
  | ThrownOther => ""
  end.

(** [loadContent] resumed in its [catch] block: the fetch threw [e] (the
    abort issued by the timer is one such throw). *)
Definition loadContent_caught (p : promise) (e : thrown) (this : t) : t :=
  match fetching this !! p with
  | Some href =>
      {| responseCache := delete href (responseCache this);
         cdnPrefix := cdnPrefix this;
         fetching := delete p (fetching this);
         settled := <[p := {| status := 0; statusText := errorMessage e |}]> (settled this);
         next_promise := next_promise this |}
  | None => this
  end.

(** The body of [load(src)]: what it does to the loader, and its completion
    value ([None] for [undefined], else the promise of the cache), which is
    what the promise of the call is resolved with. *)
Definition load_body (src : string) (this : t) : option promise * t :=
  if JS.truthy_string src then
    let this' :=
      if negb (bool_decide (is_Some (responseCache this !! src))) then
        let '(p, l) := loadContent src this in
        {| responseCache := <[src := p]> (responseCache l); cdnPrefix := cdnPrefix l;
           fetching := fetching l; settled := settled l;
           next_promise := next_promise l |}
      else this in
    (responseCache this' !! src, this')
  else (None, this).

(** A [Promise] object of the program, by the call that made it: a call of
    [loadContent], or a call of [load] (the first, the second, ...). *)
Inductive object : Type :=
| ContentPromise (p : promise)
| LoadPromise (call : nat).

(** The loader together with the promises its [load] has handed out, oldest
    first: each with what it was resolved with, [undefined] ([None]) or a
    promise of the cache. *)
Record heap : Type := mkHeap {
  loader : t;
  handed : list (option promise)
}.

Definition new_heap : heap := {| loader := create; handed := [] |}.

(** [load(src)].  The function is async: every call makes a promise of its
    own and returns that one, resolved with the completion value of the
    body. *)
Definition load (src : string) (h : heap) : object * heap :=
  let '(value, this) := load_body src (loader h) in
  (LoadPromise (length (handed h)),
   {| loader := this; handed := handed h ++ [value] |}).

(** What can happen to a loader: a call of a public method, or the outcome
    of a fetch that one of its [loadContent] calls awaits. *)
Inductive event : Type :=
| CallLoad (src : string)
| CallSetCdnPrefix (prefix : string)
| FetchFulfils (p : promise) (response : Response)
| FetchThrows (p : promise) (e : thrown).

Definition step (e : event) (this : t) : t :=
  match e with
  | CallLoad src => snd (load_body src this)
  | CallSetCdnPrefix prefix => setCdnPrefix prefix this
  | FetchFulfils p response => loadContent_fetched p response this
  | FetchThrows p e => loadContent_caught p e this
  end.

Definition run (es : list event) (this : t) : t :=
  foldl (fun l e => step e l) this es.

(** The same events, with the promises [load] hands out. *)
Definition heap_step (e : event) (h : heap) : heap :=
  match e with
  | CallLoad src => snd (load src h)
  | _ => {| loader := step e (loader h); handed := handed h |}
  end.

Definition heap_run (es : list event) (h : heap) : heap :=
  foldl (fun h e => heap_step e h) h es.

(** The loaders that can come about. *)
Inductive reachable : t -> Prop :=
| reachable_create : reachable create
| reachable_step e this : reachable this -> reachable (step e this).

(** What holds of every loader that can come about: a suspended
    [loadContent] call is the one whose promise the cache holds for its
    address, and no promise in use is one still to be created. *)
Record invariant (this : t) : Prop := mk_invariant {
  inv_fetching : forall p href,
    fetching this !! p = Some href -> responseCache this !! href = Some p;
  inv_cache_old : forall href p,
    responseCache this !! href = Some p -> p < next_promise this;
  inv_fetching_old : forall p href,
    fetching this !! p = Some href -> p < next_promise this;
  inv_settled_old : forall p r,
    settled this !! p = Some r -> p < next_promise this
}.

End CDNLoader.

(** ** Tree data *)

(** A raw item is a caller-owned object; the engine only holds references to
    it.  [item] is such a reference. *)
Definition item : Type := nat.

#[local] Unset Elimination Schemes.
(** The logical tree: every item with the ordered sequence of its children. *)
Inductive tree : Type :=
| Node (it : item) (children : list tree).
#[local] Set Elimination Schemes.

(** Induction on a tree, with the property at hand for every child. *)
Fixpoint tree_induction (P : tree -> Prop)
    (step : forall i ks, Forall P ks -> P (Node i ks)) (t : tree) : P t :=
  match t with
  | Node i ks =>
      step i ks
        ((fix go (l : list tree) : Forall P l :=
            match l with
            | [] => List.Forall_nil P
            | k :: rest => List.Forall_cons P k rest (tree_induction P step k) (go rest)
            end) ks)
  end.

Definition root (t : tree) : item := match t with Node i _ => i end.

Definition kids (t : tree) : list tree := match t with Node _ ks => ks end.

(** The first element of a list on which [f] answers. *)
Definition first_some {A B} (f : A -> option B) : list A -> option B :=
  fix go (l : list A) : option B :=
    match l with
    | [] => None
    | a :: l' => match f a with Some b => Some b | None => go l' end
    end.

(** The items of a tree, parent before children, children in their order. *)
Fixpoint tree_items (t : tree) : list item :=
  match t with
  | Node i ks => i :: flat_map tree_items ks
  end.

Definition forest_items (f : list tree) : list item := flat_map tree_items f.

(** A tree and all the trees below it, in pre-order. *)
Fixpoint subtrees (t : tree) : list tree :=
  match t with
  | Node _ ks => t :: flat_map subtrees ks
  end.

(** The childless items of a tree. *)
Fixpoint leaves (t : tree) : list item :=
  match t with
  | Node i ks =>
      match ks with
      | [] => [i]
      | _ => flat_map leaves ks
      end
  end.

(** One walk finds the subtree an item heads and the items above it,
    nearest first. *)
Fixpoint locate (x : item) (t : tree) : option (tree * list item) :=
  match t with
  | Node i ks =>
      if decide (i = x) then Some (t, [])
      else match first_some (locate x) ks with
           | Some (s, path) => Some (s, (path ++ [i]))
           | None => None
           end
  end.

(** The items below [t] in pre-order, down to [depth] levels ([None]:
    all of them). *)
Fixpoint descend (t : tree) (depth : option nat) : list item :=
  match t with
  | Node _ ks =>
      match depth with
      | Some 0 => []
      | _ => flat_map (fun k => root k :: descend k (pred <$> depth)) ks
      end
  end.

Module Composer.

(** Modelled from the spec: the Composer class is not among the sources.
    Per the specification it presents the caller's data, whichever way it was
    encoded, as one logical forest, and reads and writes named fields of the
    raw items.  [forest] is that normalised forest and [fields] the raw
    items' property bags (an item without an entry has no fields). *)
Record t : Type := mk {
  forest : list tree;
  fields : gmap item (gmap string JS.value)
}.

(** Modelled from the spec: [getItemPropertyValue] of the missing Composer;
    it reads a named field and answers undefined for one that is not there. *)
Definition getItemPropertyValue (c : t) (x : item) (key : string) : JS.value :=
  default JS.undefined (fields c !! x ≫= fun bag => bag !! key).

(** Modelled from the spec: [setItemPropertyValue] of the missing Composer;
    the write of the named field and nothing else. *)
Definition setItemPropertyValue (x : item) (key : string) (v : JS.value) (c : t) : t :=
  {| forest := forest c;
     fields := <[x := <[key := v]> (default ∅ (fields c !! x))]> (fields c) |}.

(** Modelled from the spec: how the missing Composer resolves an item, by a
    walk through its forest: the subtree the item heads and its ancestors. *)
Definition find (c : t) (x : item) : option (tree * list item) :=
  first_some (locate x) (forest c).

(** Modelled from the spec: the items of the missing Composer's forest, in
    document order. *)
Definition items (c : t) : list item := forest_items (forest c).

(** Modelled from the spec: the construction of the missing Composer, which
    reports a source in which an item occurs twice as a configuration error
    ([None]) instead of accepting it. *)
Definition create (forest : list tree) (fields : gmap item (gmap string JS.value))
  : option t :=
  if decide (NoDup (forest_items forest))
  then Some {| forest := forest; fields := fields |}
  else None.

(** Modelled from the spec: whether an item is present in the managed tree. *)
Definition isItem (c : t) (x : item) : bool := bool_decide (is_Some (find c x)).

(** Modelled from the spec: the structural queries of the missing Composer
    ([getItemAncestors] nearest first, [getItemDescendants] in pre-order and
    bounded by [depth] when one is given, [getItemDepth] counting ancestors);
    an item that is not in the forest has no relatives. *)
Definition getItemAncestors (c : t) (x : item) : list item :=
  match find c x with Some (_, path) => path | None => [] end.

(** Modelled from the spec: [getItemParent] of the missing Composer, the
    nearest ancestor or null. *)
Definition getItemParent (c : t) (x : item) : option item :=
  head (getItemAncestors c x).

(** Modelled from the spec: [getItemChildren] of the missing Composer, the
    ordered children of the item. *)
Definition getItemChildren (c : t) (x : item) : list item :=
  match find c x with Some (s, _) => root <$> kids s | None => [] end.

(** Modelled from the spec: [getItemDescendants] of the missing Composer, a
    pre-order walk below the item, bounded by [depth] when it is given. *)
Definition getItemDescendants (c : t) (x : item) (depth : option nat) : list item :=
  match find c x with Some (s, _) => descend s depth | None => [] end.

(** Modelled from the spec: [getItemDepth] of the missing Composer counts the
    ancestors, so a root has depth 0. *)
Definition getItemDepth (c : t) (x : item) : nat := length (getItemAncestors c x).

End Composer.

(** ** Tree manager *)

(** [CheckedState]: CHECKED (1), UNCHECKED (0), INDETERMINATE (-1). *)
Inductive CheckedState : Type := CHECKED | UNCHECKED | INDETERMINATE.

#[global] Instance CheckedState_eq_dec : EqDecision CheckedState.
Proof. solve_decision. Defined.

Definition CheckedState_code (s : CheckedState) : Z :=
  match s with CHECKED => 1 | UNCHECKED => 0 | INDETERMINATE => -1 end.

(** A [TreeNode] object: its own identity and the item it was built for.
    Its third field, the manager, is the one manager all handles share; the
    operations below receive the manager's state explicitly. *)
Record TreeNode : Type := mkTreeNode { node_ref : nat; node_item : item }.

#[global] Instance TreeNode_eq_dec : EqDecision TreeNode.
Proof. solve_decision. Defined.

Module TreeManager.

(** Modelled from the spec: the TreeManager class is not among the sources.
    Per the specification it owns the selection and expansion state of the
    items, the relationship mode, the selection stamp counter, the cache of
    node handles and the record of items to re-render. *)
Record t : Type := mk {
  composer : Composer.t;
  relationship : bool;
  checked : gmap item CheckedState;
  expanded : gset item;
  stamp : Z;
  nodes : gmap item TreeNode;
  next_ref : nat;
  dirty : gset item
}.

(** The manager with one of its fields replaced. *)
Definition with_composer (c : Composer.t) (m : t) : t :=
  {| composer := c; relationship := relationship m; checked := checked m;
     expanded := expanded m; stamp := stamp m; nodes := nodes m;
     next_ref := next_ref m; dirty := dirty m |}.

Definition with_expanded (e : gset item) (m : t) : t :=
  {| composer := composer m; relationship := relationship m; checked := checked m;
     expanded := e; stamp := stamp m; nodes := nodes m;
     next_ref := next_ref m; dirty := dirty m |}.

Definition with_dirty (d : gset item) (m : t) : t :=
  {| composer := composer m; relationship := relationship m; checked := checked m;
     expanded := expanded m; stamp := stamp m; nodes := nodes m;
     next_ref := next_ref m; dirty := d |}.

(** Modelled from the spec: the stored state of an item in the missing
    TreeManager's selection map; an item never written is UNCHECKED. *)
Definition state_in (st : gmap item CheckedState) (x : item) : CheckedState :=
  default UNCHECKED (st !! x).

(** Modelled from the spec: the rule by which the missing TreeManager derives
    an ancestor's state: CHECKED iff all of its children are CHECKED,
    UNCHECKED iff all are UNCHECKED, otherwise INDETERMINATE. *)
Definition aggregate (l : list CheckedState) : CheckedState :=
  if forallb (fun s => bool_decide (s = CHECKED)) l then CHECKED
  else if forallb (fun s => bool_decide (s = UNCHECKED)) l then UNCHECKED
  else INDETERMINATE.

(** The stored states follow the rule at the head of [t]: an item with
    children holds the aggregate of its children's states, a childless one
    is CHECKED or UNCHECKED. *)
Definition rule_at (st : gmap item CheckedState) (t : tree) : Prop :=
  match kids t with
  | [] => state_in st (root t) <> INDETERMINATE
  | ks => state_in st (root t) = aggregate (state_in st <$> (root <$> ks))
  end.

(** The stored states follow the rule throughout a tree, and a forest. *)
Definition ruled (st : gmap item CheckedState) (t : tree) : Prop :=
  forall t', t' ∈ subtrees t -> rule_at st t'.

Definition consistent (st : gmap item CheckedState) (f : list tree) : Prop :=
  forall t, t ∈ f -> ruled st t.

(** Modelled from the spec: one ancestor recomputed from the stored states of
    its children, as the missing TreeManager does after a change below it. *)
Definition recompute (c : Composer.t) (st : gmap item CheckedState) (a : item)
  : gmap item CheckedState :=
  <[a := aggregate (state_in st <$> Composer.getItemChildren c a)]> st.

(** Modelled from the spec: the cascade of the missing TreeManager, which
    forces a state on a series of items. *)
Definition force (s : CheckedState) (st : gmap item CheckedState) (xs : list item)
  : gmap item CheckedState :=
  foldl (fun st x => <[x := s]> st) st xs.

(** Modelled from the spec: the propagation of the missing TreeManager's
    [checkItem] and [uncheckItem]: the item takes the state, in relationship
    mode all of its descendants are forced to it and then every ancestor is
    recomputed, bottom-up, by the rule above; otherwise only the item changes. *)
Definition propagate (c : Composer.t) (rel : bool) (x : item) (s : CheckedState)
    (st : gmap item CheckedState) : gmap item CheckedState :=
  if rel then
    foldl (recompute c)
      (force s (<[x := s]> st) (Composer.getItemDescendants c x None))
      (Composer.getItemAncestors c x)
  else <[x := s]> st.

(** Modelled from the spec: the items a propagation from [x] may touch, which
    the missing TreeManager marks for re-rendering. *)
Definition affected (c : Composer.t) (rel : bool) (x : item) : list item :=
  if rel
  then x :: Composer.getItemDescendants c x None ++ Composer.getItemAncestors c x
  else [x].

(** Modelled from the spec: the selection stamp is cleared on every item
    that is no longer CHECKED. *)
Definition clear_stamps (st : gmap item CheckedState) (c : Composer.t) : Composer.t :=
  foldl (fun c x =>
           if bool_decide (state_in st x = CHECKED) then c
           else Composer.setItemPropertyValue x "selectedAt" JS.undefined c)
        c (Composer.items c).

(** Modelled from the spec: [getItemCheckedState] of the missing TreeManager,
    a pure read of the stored state. *)
Definition getItemCheckedState (m : t) (x : item) : CheckedState :=
  state_in (checked m) x.

(** Modelled from the spec: [checkItem] of the missing TreeManager.  An item
    that is not in the tree is left alone (the no-op the specification allows);
    the stamp goes to the targeted item only. *)
Definition checkItem (x : item) (m : t) : t :=
  if Composer.isItem (composer m) x then
    let st := propagate (composer m) (relationship m) x CHECKED (checked m) in
    {| composer :=
         Composer.setItemPropertyValue x "selectedAt" (JS.num (stamp m))
           (clear_stamps st (composer m));
       relationship := relationship m;
       checked := st;
       expanded := expanded m;
       stamp := (stamp m + 1)%Z;
       nodes := nodes m;
       next_ref := next_ref m;
       dirty := dirty m ∪ list_to_set (affected (composer m) (relationship m) x) |}
  else m.

(** Modelled from the spec: [uncheckItem] of the missing TreeManager,
    symmetric to [checkItem]. *)
Definition uncheckItem (x : item) (m : t) : t :=
  if Composer.isItem (composer m) x then
    let st := propagate (composer m) (relationship m) x UNCHECKED (checked m) in
    {| composer := clear_stamps st (composer m);
       relationship := relationship m;
       checked := st;
       expanded := expanded m;
       stamp := stamp m;
       nodes := nodes m;
       next_ref := next_ref m;
       dirty := dirty m ∪ list_to_set (affected (composer m) (relationship m) x) |}
  else m.

(** Modelled from the spec: [isItemCheckable] of the missing TreeManager:
    false iff the item is disabled or readonly. *)
Definition isItemCheckable (m : t) (x : item) : bool :=
  negb (JS.to_boolean (Composer.getItemPropertyValue (composer m) x "disabled")
        || JS.to_boolean (Composer.getItemPropertyValue (composer m) x "readonly")).

(** Modelled from the spec: the expansion flag of the missing TreeManager, a
    boolean per item that [expandItem] raises and [collapseItem] lowers. *)
Definition isItemExpanded (m : t) (x : item) : bool := bool_decide (x ∈ expanded m).

(** Modelled from the spec: [expandItem] of the missing TreeManager raises
    the flag of an item of the tree (and marks it for re-rendering). *)
Definition expandItem (x : item) (m : t) : t :=
  if Composer.isItem (composer m) x
  then with_dirty (dirty m ∪ {[x]}) (with_expanded (expanded m ∪ {[x]}) m)
  else m.

(** Modelled from the spec: [collapseItem] of the missing TreeManager lowers
    the flag of an item of the tree (and marks it for re-rendering). *)
Definition collapseItem (x : item) (m : t) : t :=
  if Composer.isItem (composer m) x
  then with_dirty (dirty m ∪ {[x]}) (with_expanded (expanded m ∖ {[x]}) m)
  else m.

(** Modelled from the spec: the structural queries of the missing
    TreeManager pass through to its composer. *)
Definition getItemAncestors (m : t) (x : item) : list item :=
  Composer.getItemAncestors (composer m) x.

(** Modelled from the spec: [getItemChildren] of the missing TreeManager. *)
Definition getItemChildren (m : t) (x : item) : list item :=
  Composer.getItemChildren (composer m) x.

(** Modelled from the spec: [getItemDescendants] of the missing TreeManager. *)
Definition getItemDescendants (m : t) (x : item) (depth : option nat) : list item :=
  Composer.getItemDescendants (composer m) x depth.

(** Modelled from the spec: [getItemParent] of the missing TreeManager. *)
Definition getItemParent (m : t) (x : item) : option item :=
  Composer.getItemParent (composer m) x.

(** Modelled from the spec: [isItemParent] of the missing TreeManager: the
    item has at least one child. *)
Definition isItemParent (m : t) (x : item) : bool :=
  negb (bool_decide (getItemChildren m x = [])).

(** Modelled from the spec: [isItemChild] of the missing TreeManager: the
    item has a parent. *)
Definition isItemChild (m : t) (x : item) : bool :=
  bool_decide (is_Some (getItemParent m x)).

(** Modelled from the spec: [getTreeNode] of the missing TreeManager: the
    cached handle of the item, created and cached on first use. *)
Definition getTreeNode (x : item) (m : t) : TreeNode * t :=
  match nodes m !! x with
  | Some n => (n, m)
  | None =>
      let n := {| node_ref := next_ref m; node_item := x |} in
      (n, {| composer := composer m; relationship := relationship m;
             checked := checked m; expanded := expanded m; stamp := stamp m;
             nodes := <[x := n]> (nodes m);
             next_ref := S (next_ref m);
             dirty := dirty m |})
  end.

(** Modelled from the spec: [updateItem] of the missing TreeManager marks the
    item for re-rendering and changes no other state. *)
Definition updateItem (x : item) (m : t) : t := with_dirty (dirty m ∪ {[x]}) m.

(** Modelled from the spec: a new manager holds the seeds the raw items carry
    in their [expanded] and [selected] fields. *)
Definition create (c : Composer.t) (rel : bool) : t :=
  let seeded key := List.filter (fun x => JS.to_boolean (Composer.getItemPropertyValue c x key))
                                (Composer.items c) in
  foldl (fun m x => checkItem x m)
        {| composer := c; relationship := rel; checked := ∅;
           expanded := list_to_set (seeded "expanded");
           stamp := 0; nodes := ∅; next_ref := 0; dirty := ∅ |}
        (seeded "selected").

End TreeManager.

(** ** Tree node handles *)

Module TreeNodeAPI.

(** Everything [TreeNode] asks of its manager (and of the manager's
    composer): the calls of [tree-node.ts], with the type of their answer. *)
Inductive Call : Type -> Type :=
| GetItemPropertyValue (x : item) (prop : string) : Call JS.value
| SetItemPropertyValue (x : item) (prop : string) (v : JS.value) : Call unit
| GetItemDepth (x : item) : Call nat
| IsItemExpanded (x : item) : Call bool
| ExpandItem (x : item) : Call unit
| CollapseItem (x : item) : Call unit
| GetItemCheckedState (x : item) : Call CheckedState
| CheckItem (x : item) : Call unit
| UncheckItem (x : item) : Call unit
| GetItemAncestors (x : item) : Call (list item)
| GetItemChildren (x : item) : Call (list item)
| GetItemDescendants (x : item) (depth : option nat) : Call (list item)
| GetItemParent (x : item) : Call (option item)
| GetTreeNode (x : item) : Call TreeNode
| IsItemCheckable (x : item) : Call bool
| IsItemParent (x : item) : Call bool
| IsItemChild (x : item) : Call bool
| UpdateItem (x : item) : Call unit.

(** A method body: a result, or a call and what is done with its answer. *)
Inductive Prog (R : Type) : Type :=
| Ret (r : R)
| Vis {X : Type} (c : Call X) (k : X -> Prog R).
Arguments Ret {R} r.
Arguments Vis {R X} c k.

Fixpoint bind {A B} (p : Prog A) (f : A -> Prog B) : Prog B :=
  match p with
  | Ret a => f a
  | Vis c k => Vis c (fun x => bind (k x) f)
  end.

Definition call {X} (c : Call X) : Prog X := Vis c Ret.

(** [Array.prototype.map] with a callback that calls the manager. *)
Fixpoint mapM {A B} (f : A -> Prog B) (l : list A) : Prog (list B) :=
  match l with
  | [] => Ret []
  | a :: l' => bind (f a) (fun b => bind (mapM f l') (fun bs => Ret (b :: bs)))
  end.

(** A manager, as seen from a handle: a state and an answer to every call. *)
Definition handler (S : Type) : Type := forall X, Call X -> S -> X * S.

Fixpoint run {S R} (h : handler S) (p : Prog R) (s : S) : R * S :=
  match p with
  | Ret r => (r, s)
  | Vis c k => let '(x, s') := h _ c s in run h (k x) s'
  end.

(** The field of the raw item a call writes through the composer. *)
Definition written {X} (c : Call X) : option (item * string) :=
  match c with
  | SetItemPropertyValue x prop _ => Some (x, prop)
  | _ => None
  end.

(** Every call [p] can make, whatever the manager answers, satisfies [Q]. *)
Fixpoint every_call {R} (Q : forall X, Call X -> Prop) (p : Prog R) : Prop :=
  match p with
  | Ret _ => True
  | Vis c k => Q _ c /\ forall a, every_call Q (k a)
  end.

(** [c] leaves field [prop] alone: it is no composer write of that field. *)
Definition spares (prop : string) : forall X, Call X -> Prop :=
  fun X c => forall x, written c <> Some (x, prop).

(** The calls [p] makes when the manager answers as [h] does from [s]. *)
Fixpoint trace {S R} (h : handler S) (p : Prog R) (s : S) : list {X : Type & Call X} :=
  match p with
  | Ret _ => []
  | Vis c k => let '(x, s') := h _ c s in existT _ c :: trace h (k x) s'
  end.

End TreeNodeAPI.

Module TreeNode.
Import TreeNodeAPI.

Notation "'let*' x := p 'in' q" := (bind p (fun x => q))
  (at level 10, x name, p at level 100, q at level 200, only parsing).

Section methods.
Variable this : TreeNode.

Definition getPropertyValue (prop : string) : Prog JS.value :=
  call (GetItemPropertyValue (node_item this) prop).

Definition setProperty (prop : string) (value : JS.value) : Prog unit :=
  call (SetItemPropertyValue (node_item this) prop value).

Definition get_icon : Prog JS.value := getPropertyValue "icon".

(** [icon] is a [string | undefined]. *)
Definition set_icon (icon : option string) : Prog unit :=
  setProperty "icon" (from_option JS.str JS.undefined icon).

Definition get_label : Prog JS.value := getPropertyValue "label".

Definition set_label (value : string) : Prog unit := setProperty "label" (JS.str value).

Definition get_value : Prog JS.value := getPropertyValue "value".

Definition set_value (value : string) : Prog unit := setProperty "value" (JS.str value).

Definition get_readonly : Prog bool :=
  let* v := getPropertyValue "readonly" in Ret (JS.to_boolean v).

Definition set_readonly (value : bool) : Prog unit := setProperty "readonly" (JS.bool value).

Definition get_highlighted : Prog bool :=
  let* v := getPropertyValue "highlighted" in Ret (JS.to_boolean v).

Definition set_highlighted (value : bool) : Prog unit :=
  setProperty "highlighted" (JS.bool value).

Definition get_disabled : Prog bool :=
  let* v := getPropertyValue "disabled" in Ret (JS.to_boolean v).

Definition set_disabled (value : bool) : Prog unit := setProperty "disabled" (JS.bool value).

Definition get_hidden : Prog bool :=
  let* v := getPropertyValue "hidden" in Ret (JS.to_boolean v).

Definition get_expanded : Prog bool := call (IsItemExpanded (node_item this)).

Definition set_expanded (value : bool) : Prog unit :=
  if value then call (ExpandItem (node_item this))
  else call (CollapseItem (node_item this)).

Definition get_selectedAt : Prog JS.value := getPropertyValue "selectedAt".

Definition get_selected : Prog bool :=
  let* checkedState := call (GetItemCheckedState (node_item this)) in
  Ret (bool_decide (checkedState = CHECKED)).

Definition set_selected (value : bool) : Prog unit :=
  if value then call (CheckItem (node_item this))
  else call (UncheckItem (node_item this)).

Definition getCheckedState : Prog CheckedState :=
  call (GetItemCheckedState (node_item this)).

Definition getAncestors : Prog (list TreeNode) :=
  let* ancestors := call (GetItemAncestors (node_item this)) in
  mapM (fun ancestor => call (GetTreeNode ancestor)) ancestors.

Definition getChildren : Prog (list TreeNode) :=
  let* children := call (GetItemChildren (node_item this)) in
  mapM (fun child => call (GetTreeNode child)) children.

Definition getDescendants (depth : option nat) : Prog (list TreeNode) :=
  let* descendants := call (GetItemDescendants (node_item this) depth) in
  mapM (fun descendant => call (GetTreeNode descendant)) descendants.

Definition getParent : Prog (option TreeNode) :=
  let* parent := call (GetItemParent (node_item this)) in
  match parent with
  | Some parent => let* n := call (GetTreeNode parent) in Ret (Some n)
  | None => Ret None
  end.

Definition isSelectable : Prog bool := call (IsItemCheckable (node_item this)).

Definition isParent : Prog bool := call (IsItemParent (node_item this)).

Definition isChild : Prog bool := call (IsItemChild (node_item this)).

Definition getDepth : Prog nat := call (GetItemDepth (node_item this)).

Definition rerender : Prog unit := call (UpdateItem (node_item this)).

End methods.

(** The public members of [TreeNode]. *)
Inductive member : Type :=
| GetIcon | SetIcon (icon : option string)
| GetLabel | SetLabel (value : string)
| GetValue | SetValue (value : string)
| GetReadonly | SetReadonly (value : bool)
| GetHighlighted | SetHighlighted (value : bool)
| GetDisabled | SetDisabled (value : bool)
| GetHidden
| GetExpanded | SetExpanded (value : bool)
| GetSelectedAt
| GetSelected | SetSelected (value : bool)
| GetCheckedState
| GetAncestors | GetChildren | GetDescendants (depth : option nat) | GetParent
| IsSelectable | IsParent | IsChild | GetDepth
| Rerender.

Definition result (o : member) : Type :=
  match o with
  | GetIcon | GetLabel | GetValue | GetSelectedAt => JS.value
  | GetReadonly | GetHighlighted | GetDisabled | GetHidden
  | GetExpanded | GetSelected | IsSelectable | IsParent | IsChild => bool
  | GetCheckedState => CheckedState
  | GetAncestors | GetChildren | GetDescendants _ => list TreeNode
  | GetParent => option TreeNode
  | GetDepth => nat
  | _ => unit
  end.

Definition invoke (o : member) (this : TreeNode) : Prog (result o) :=
  match o with
  | GetIcon => get_icon this
  | SetIcon icon => set_icon this icon
  | GetLabel => get_label this
  | SetLabel value => set_label this value
  | GetValue => get_value this
  | SetValue value => set_value this value
  | GetReadonly => get_readonly this
  | SetReadonly value => set_readonly this value
  | GetHighlighted => get_highlighted this
  | SetHighlighted value => set_highlighted this value
  | GetDisabled => get_disabled this
  | SetDisabled value => set_disabled this value
  | GetHidden => get_hidden this
  | GetExpanded => get_expanded this
  | SetExpanded value => set_expanded this value
  | GetSelectedAt => get_selectedAt this
  | GetSelected => get_selected this
  | SetSelected value => set_selected this value
  | GetCheckedState => getCheckedState this
  | GetAncestors => getAncestors this
  | GetChildren => getChildren this
  | GetDescendants depth => getDescendants this depth
  | GetParent => getParent this
  | IsSelectable => isSelectable this
  | IsParent => isParent this
  | IsChild => isChild this
  | GetDepth => getDepth this
  | Rerender => rerender this
  end.

(** The handle reads one of its boolean properties as the coercion of what
    the composer holds for it. *)
Definition reads_coerced {S} (h : handler S) (s : S) (this : TreeNode)
    (prop : string) (getter : Prog bool) : Prop :=
  let answer := h _ (GetItemPropertyValue (node_item this) prop) s in
  run h getter s = (JS.to_boolean (fst answer), snd answer) /\
  (fst answer = JS.undefined -> fst (run h getter s) = false).

End TreeNode.

Module TreeManagerAPI.
Import TreeNodeAPI.

(** Modelled from the spec: the missing TreeManager (and its composer)
    answering the calls of a handle, each by the operation of that name. *)
Definition handle : handler TreeManager.t := fun X c =>
  match c in Call X return TreeManager.t -> X * TreeManager.t with
  | GetItemPropertyValue x prop => fun m =>
      (Composer.getItemPropertyValue (TreeManager.composer m) x prop, m)
  | SetItemPropertyValue x prop v => fun m =>
      (tt, TreeManager.with_composer
             (Composer.setItemPropertyValue x prop v (TreeManager.composer m)) m)
  | GetItemDepth x => fun m => (Composer.getItemDepth (TreeManager.composer m) x, m)
  | IsItemExpanded x => fun m => (TreeManager.isItemExpanded m x, m)
  | ExpandItem x => fun m => (tt, TreeManager.expandItem x m)
  | CollapseItem x => fun m => (tt, TreeManager.collapseItem x m)
  | GetItemCheckedState x => fun m => (TreeManager.getItemCheckedState m x, m)
  | CheckItem x => fun m => (tt, TreeManager.checkItem x m)
  | UncheckItem x => fun m => (tt, TreeManager.uncheckItem x m)
  | GetItemAncestors x => fun m => (TreeManager.getItemAncestors m x, m)
  | GetItemChildren x => fun m => (TreeManager.getItemChildren m x, m)
  | GetItemDescendants x depth => fun m => (TreeManager.getItemDescendants m x depth, m)
  | GetItemParent x => fun m => (TreeManager.getItemParent m x, m)
  | GetTreeNode x => fun m => TreeManager.getTreeNode x m
  | IsItemCheckable x => fun m => (TreeManager.isItemCheckable m x, m)
  | IsItemParent x => fun m => (TreeManager.isItemParent m x, m)
  | IsItemChild x => fun m => (TreeManager.isItemChild m x, m)
  | UpdateItem x => fun m => (tt, TreeManager.updateItem x m)
  end.

(** The manager after a series of calls, whoever makes them. *)
Definition after (calls : list {X : Type & Call X}) (m : TreeManager.t) : TreeManager.t :=
  foldl (fun m c => snd (handle _ (projT2 c) m)) m calls.

(** The managers that can come about for a composer and a mode. *)
Inductive reachable (c : Composer.t) (rel : bool) : TreeManager.t -> Prop :=
| reachable_create : reachable c rel (TreeManager.create c rel)
| reachable_call X (call : Call X) m :
    reachable c rel m -> reachable c rel (snd (handle X call m)).

(** Two managers hold the same value for field [prop] of every raw item. *)
Definition same_field (prop : string) (m m' : TreeManager.t) : Prop :=
  forall x, Composer.getItemPropertyValue (TreeManager.composer m') x prop
            = Composer.getItemPropertyValue (TreeManager.composer m) x prop.

(** The calls that are neither of the two selection mutators. *)
Definition no_selection : forall X, Call X -> Prop :=
  fun X c => match c with CheckItem _ | UncheckItem _ => False | _ => True end.

(** The handle's setter for [prop] is the one composer write of that field
    of its item, and with the modelled composer the field then holds [v]. *)
Definition writes_field (this : TreeNode) (prop : string) (v : JS.value)
    (setter : Prog unit) : Prop :=
  setter = call (SetItemPropertyValue (node_item this) prop v) /\
  forall m : TreeManager.t,
    Composer.getItemPropertyValue
      (TreeManager.composer (snd (run handle setter m)))
      (node_item this) prop = v.

(** The field of every raw item is as it was once the member has run. *)
Definition member_keeps (prop : string) (o : TreeNode.member) : Prop :=
  forall (this : TreeNode) (m : TreeManager.t),
    same_field prop m
      (snd (run handle (TreeNode.invoke o this) m)).

(** What every manager that can come about for [c] in mode [rel] satisfies:
    it still manages the forest of [c] in that mode and, in relationship mode
    over a forest without repeated items, its stored states follow the rule. *)
Definition sound (c : Composer.t) (rel : bool) (m : TreeManager.t) : Prop :=
  Composer.forest (TreeManager.composer m) = Composer.forest c /\
  TreeManager.relationship m = rel /\
  (rel = true -> NoDup (Composer.items c) ->
   TreeManager.consistent (TreeManager.checked m) (Composer.forest c)).

End TreeManagerAPI.

(** ** Sample data *)

Module Samples.

(** [nestedData] of the tree's test data: Item 1 (expanded) with Item 1.1 and
    Item 1.2 (selected), Item 2 (readonly), Item 3 (disabled) and Item 4.
    The items are numbered in document order. *)
Definition nestedData : Composer.t :=
  {| Composer.forest := [Node 0 [Node 1 []; Node 2 []]; Node 3 []; Node 4 []; Node 5 []];
     Composer.fields :=
       list_to_map
         [(0, list_to_map [("label", JS.str "Item 1"); ("value", JS.str "1");
                           ("expanded", JS.bool true)]);
          (1, list_to_map [("label", JS.str "Item 1.1"); ("value", JS.str "1.1")]);
          (2, list_to_map [("label", JS.str "Item 1.2"); ("value", JS.str "1.2");
                           ("selected", JS.bool true)]);
          (3, list_to_map [("label", JS.str "Item 2"); ("value", JS.str "2");
                           ("readonly", JS.bool true)]);
          (4, list_to_map [("label", JS.str "Item 3"); ("value", JS.str "3");
                           ("disabled", JS.bool true)]);
          (5, list_to_map [("label", JS.str "Item 4"); ("value", JS.str "4")])] |}.

(** The scenario tree of the specification: A with children B and C, with
    nothing selected. *)
Definition abc : Composer.t :=
  {| Composer.forest := [Node 0 [Node 1 []; Node 2 []]];
     Composer.fields :=
       list_to_map
         [(0, list_to_map [("label", JS.str "A"); ("value", JS.str "A")]);
          (1, list_to_map [("label", JS.str "B"); ("value", JS.str "B")]);
          (2, list_to_map [("label", JS.str "C"); ("value", JS.str "C")])] |}.

(** [deepNestedData] of the tree's test data: Item 1 with Item 1.1, Item 1.2
    and Item 1.3; Item 1.3 with Item 1.3.1 and Item 1.3.2, each of which has
    three selected children.  The items are numbered in document order. *)
Definition deepNestedData : Composer.t :=
  let selected (x : item) : item * gmap string JS.value :=
    (x, {[ "selected" := JS.bool true ]}) in
  {| Composer.forest :=
       [Node 0 [Node 1 []; Node 2 [];
                Node 3 [Node 4 [Node 5 []; Node 6 []; Node 7 []];
                        Node 8 [Node 9 []; Node 10 []; Node 11 []]]]];
     Composer.fields := list_to_map (selected <$> [5; 6; 7; 9; 10; 11]) |}.

End Samples.

(** ** The life of a CDN loader *)

Module CDNLoaderLife.
Import CDNLoader.

(** The non-empty addresses a series of events asks [load] for. *)
Definition loaded (es : list event) : gset string :=
  list_to_set
    (omap (fun e => match e with
                    | CallLoad src => if JS.truthy_string src then Some src else None
                    | _ => None
                    end) es).

(** The event is the failure of a fetch. *)
Definition throws (e : event) : bool :=
  match e with FetchThrows _ _ => true | _ => false end.

(** How the cache, the suspended calls and the settled promises of a loader
    relate: no two addresses share a promise, a promise is not both suspended
    and settled, and a cached promise is the suspended call for its address
    or is settled. *)
Record separation (this : t) : Prop := mk_separation {
  sep_cache_inj : forall src src' p,
    responseCache this !! src = Some p -> responseCache this !! src' = Some p ->
    src = src';
  sep_disjoint : forall p href,
    fetching this !! p = Some href -> settled this !! p = None;
  sep_cache_live : forall src p,
    responseCache this !! src = Some p ->
    fetching this !! p = Some src \/
    (fetching this !! p = None /\ is_Some (settled this !! p))
}.

(** Promise [p] exists and no address of the cache leads to it. *)
Definition retired (p : promise) (this : t) : Prop :=
  p < next_promise this /\ forall src, responseCache this !! src <> Some p.

End CDNLoaderLife.


(** ** Loading an icon *)

Module Url.

(** A letter without its case, as the flag [i] of a regular expression
    compares it; any other character is itself. *)
Definition fold_case (c : Ascii.ascii) : Ascii.ascii :=
  let n := Ascii.nat_of_ascii c in
  if Nat.leb 65 n && Nat.leb n 90 then Ascii.ascii_of_nat (n + 32) else c.

Definition same_letter (p c : Ascii.ascii) : bool := Ascii.eqb (fold_case p) (fold_case c).

(** The characters of [pattern], matched at the start of [str] without
    regard to case: what follows them in [str]. *)
Fixpoint literal (pattern str : string) : option string :=
  match pattern with
  | EmptyString => Some str
  | String p pattern' =>
      match str with
      | String c str' => if same_letter p c then literal pattern' str' else None
      | EmptyString => None
      end
  end.

(** [str] with its letters folded. *)
Fixpoint lowercase (str : string) : string :=
  match str with
  | EmptyString => EmptyString
  | String c str' => String (fold_case c) (lowercase str')
  end.

Definition matches (pattern str : string) : bool :=
  match literal pattern str with Some _ => true | None => false end.

(** [(/^https?:\/\//i).test(str)]: [http], then [s] or nothing, then [://]. *)
Definition isUrl (str : string) : bool :=
  match literal "http" str with
  | Some rest =>
      match literal "s" rest with
      | Some rest' => matches "://" rest'
      | None => false
      end
      || matches "://" rest
  | None => false
  end.

End Url.

Module IconSVG.

(** What [loadSVG] reads of the request [load] resolves with. *)
Record Request : Type := mkRequest {
  status : Z;
  contentType : option string;   (* getResponseHeader('content-type') *)
  responseText : string
}.

(** An async body that goes on with [k] once [p] is fulfilled. *)
Definition await {A B} (p : Promise.state A) (k : A -> Promise.state B)
    : Promise.state B :=
  match p with
  | Promise.Pending => Promise.Pending
  | Promise.Fulfilled v => k v
  | Promise.Rejected r => Promise.Rejected r
  end.

Section loadSVG.

(** [load] is inherited from the loader base class, which is not among the
    sources: it is any function from an address to a promise of a request or
    of [undefined].  [markup] stands for the work done in the document: the
    response text parsed into an [svg] container, the unsafe nodes stripped,
    the root marked unfocusable, and the container serialised again. *)
Variable load : string -> Promise.state (option Request).
Variable markup : string -> string.

(** The body of [loadSVG] after [await this.load(icon)]. *)
Definition svg_of (response : option Request) : string :=
  match response with
  | Some response =>
      if (status response =? 200)%Z
         && bool_decide (contentType response = Some "image/svg+xml")
      then markup (responseText response)
      else ""
  | None => ""
  end.

(** [loadSVG] is async: its result is what the returned promise shows.  A
    URL goes to [load] as it is, without waiting for anything. *)
Definition loadSVG (icon : string) (this : IconLoader.t)
    : Promise.state (option string) :=
  if JS.truthy_string icon then
    await (if negb (Url.isUrl icon) then IconLoader.getSrc icon this
           else Promise.Fulfilled icon)
      (fun icon =>
         await (load icon) (fun response => Promise.Fulfilled (Some (svg_of response))))
  else Promise.Fulfilled None.

End loadSVG.

End IconSVG.


(** ** The input maps of the fields *)

Module InputMap.

(** A [TemplateMap]: the attributes and properties given to the [input]. *)
Definition t : Type := gmap string JS.value.

(** [EmailField]'s [decorateInputMap] over the map it inherits. *)
Definition EmailField_decorateInputMap (super : t) (this : EmailField.t) : t :=
  <["pattern" := EmailField.pattern this]>
    (<["multiple" := JS.bool (EmailField.multiple this)]>
       (<["inputmode" := JS.str "email"]>
          (<["type" := JS.str "email"]> super))).

(** [SearchField]'s [decorateInputMap] over the map it inherits. *)
Definition SearchField_decorateInputMap (super : t) : t :=
  <["inputmode" := JS.str "search"]> (<["type" := JS.str "search"]> super).

End InputMap.


(** ** What a handle asks of its manager *)

Module TreeNodeCalls.
Import TreeNodeAPI.

(** The item a call is about. *)
Definition about {X} (c : Call X) : item :=
  match c with
  | GetItemPropertyValue x _ | SetItemPropertyValue x _ _ | GetItemDepth x
  | IsItemExpanded x | ExpandItem x | CollapseItem x
  | GetItemCheckedState x | CheckItem x | UncheckItem x
  | GetItemAncestors x | GetItemChildren x | GetItemDescendants x _
  | GetItemParent x | GetTreeNode x
  | IsItemCheckable x | IsItemParent x | IsItemChild x | UpdateItem x => x
  end.

(** The call asks for the handle of an item. *)
Definition wraps {X} (c : Call X) : bool :=
  match c with GetTreeNode _ => true | _ => false end.

(** The call is a command: it returns nothing. *)
Definition command {X} (c : Call X) : bool :=
  match c with
  | SetItemPropertyValue _ _ _ | ExpandItem _ | CollapseItem _
  | CheckItem _ | UncheckItem _ | UpdateItem _ => true
  | _ => false
  end.

(** The member is a property setter or [rerender]. *)
Definition setter (o : TreeNode.member) : bool :=
  match o with
  | TreeNode.SetIcon _ | TreeNode.SetLabel _ | TreeNode.SetValue _
  | TreeNode.SetReadonly _ | TreeNode.SetHighlighted _ | TreeNode.SetDisabled _
  | TreeNode.SetExpanded _ | TreeNode.SetSelected _ | TreeNode.Rerender => true
  | _ => false
  end.

End TreeNodeCalls.

(** * Properties *)

(** ** JavaScript values *)

Module JSFacts.

Lemma strict_neq_true a b : JS.strict_neq a b = true <-> a <> b.
Proof.
  unfold JS.strict_neq, JS.strict_eq.
  rewrite negb_true_iff, bool_decide_eq_false. tauto.
Qed.

Lemma truthy_string_true s : JS.truthy_string s = true <-> s <> "".
Proof.
  unfold JS.truthy_string. rewrite negb_true_iff.
  destruct (String.eqb_spec s ""); split; congruence.
Qed.

End JSFacts.

(** ** EmailField *)

(** C8: [EmailField.shouldValidate()] is true exactly when [maxLength] is not
    null, or [minLength] is not null, or [pattern] is not the empty string; as
    [pattern] starts out as null, which is not the empty string, a freshly
    created field with no constraint configured already validates. *)
Theorem C8_shouldValidate_constraints :
  (forall f : EmailField.t,
      EmailField.shouldValidate f = true <->
      EmailField.maxLength f <> JS.null \/
      EmailField.minLength f <> JS.null \/
      EmailField.pattern f <> JS.str "") /\
  EmailField.pattern EmailField.create = JS.null /\
  EmailField.maxLength EmailField.create = JS.null /\
  EmailField.minLength EmailField.create = JS.null /\
  EmailField.shouldValidate EmailField.create = true.
Proof.
  split; [|by repeat split].
  intros f. unfold EmailField.shouldValidate. cbv zeta.
  rewrite !orb_true_iff, !JSFacts.strict_neq_true. tauto.
Qed.

(** ** IconLoader *)

Module IconLoaderFacts.
Import IconLoader.

Lemma set_isPrefixSet_fields value this :
  cdnPrefix (set_isPrefixSet value this) = cdnPrefix this /\
  _isPrefixSet (set_isPrefixSet value this) = value.
Proof.
  unfold set_isPrefixSet.
  destruct (Bool.eqb_spec (_isPrefixSet this) value); simpl; auto.
Qed.

Lemma setCdnPrefix_empty this : setCdnPrefix "" this = this.
Proof. reflexivity. Qed.

Lemma setCdnPrefix_nonempty prefix this :
  prefix <> "" ->
  cdnPrefix (setCdnPrefix prefix this) = Deferred.resolve prefix (cdnPrefix this) /\
  _isPrefixSet (setCdnPrefix prefix this) = true.
Proof.
  intros Hne. unfold setCdnPrefix.
  apply JSFacts.truthy_string_true in Hne. rewrite Hne.
  apply set_isPrefixSet_fields.
Qed.

Lemma after_prefixes_settled prefixes : forall this v,
  getCdnPrefix this = Promise.Fulfilled v ->
  isPrefixSet this = true ->
  getCdnPrefix (after_prefixes prefixes this) = Promise.Fulfilled v /\
  isPrefixSet (after_prefixes prefixes this) = true.
Proof.
  induction prefixes as [|p ps IH]; intros this v Hv Hset; [done|].
  simpl. apply IH.
  - destruct (decide (p = "")) as [->|Hne]; [done|].
    destruct (setCdnPrefix_nonempty p this Hne) as [Hc _].
    unfold getCdnPrefix in *. rewrite Hc. unfold Deferred.resolve. by rewrite Hv.
  - destruct (decide (p = "")) as [->|Hne]; [done|].
    apply (setCdnPrefix_nonempty p this Hne).
Qed.

Lemma after_prefixes_first prefixes : forall this,
  getCdnPrefix this = Promise.Pending ->
  match first_prefix prefixes with
  | None => after_prefixes prefixes this = this
  | Some p =>
      getCdnPrefix (after_prefixes prefixes this) = Promise.Fulfilled p /\
      isPrefixSet (after_prefixes prefixes this) = true
  end.
Proof.
  unfold first_prefix.
  induction prefixes as [|p ps IH]; intros this Hpend; [done|].
  simpl. rewrite filter_cons. destruct (decide (p <> "")) as [Hne|Heq].
  - simpl. destruct (setCdnPrefix_nonempty p this Hne) as [Hc Hs].
    apply after_prefixes_settled; [|done].
    unfold getCdnPrefix in *. rewrite Hc. unfold Deferred.resolve. by rewrite Hpend.
  - assert (p = "") as -> by (destruct (decide (p = "")); tauto).
    rewrite setCdnPrefix_empty. by apply IH.
Qed.

End IconLoaderFacts.

(** C10: [IconLoader.setCdnPrefix] with a non-empty prefix sets [isPrefixSet]
    and resolves the prefix promise (a pending one with that very prefix);
    with the empty string it changes nothing.  Hence, over the life of a loader
    driven by [setCdnPrefix], the prefix promise is never rejected; while every
    prefix given so far was empty [isPrefixSet] is false, the promise is
    pending and [getSrc] of a non-empty icon name is pending too; once a
    non-empty prefix has been given, [getSrc] resolves with that first prefix,
    the name and the [.svg] suffix. *)
Theorem C10_setCdnPrefix_settles_only_when_nonempty :
  (forall (this : IconLoader.t) (prefix : string),
      prefix <> "" ->
      IconLoader.isPrefixSet (IconLoader.setCdnPrefix prefix this) = true /\
      (IconLoader.getCdnPrefix this = Promise.Pending ->
       IconLoader.getCdnPrefix (IconLoader.setCdnPrefix prefix this)
       = Promise.Fulfilled prefix) /\
      ((forall r, IconLoader.getCdnPrefix this <> Promise.Rejected r) ->
       Deferred.isResolved (IconLoader.cdnPrefix (IconLoader.setCdnPrefix prefix this))
       = true)) /\
  (forall this : IconLoader.t, IconLoader.setCdnPrefix "" this = this) /\
  (forall prefixes : list string,
      let this := IconLoader.after_prefixes prefixes IconLoader.create in
      (forall r, IconLoader.getCdnPrefix this <> Promise.Rejected r) /\
      (Forall (fun p => p = "") prefixes ->
       IconLoader.isPrefixSet this = false /\
       IconLoader.getCdnPrefix this = Promise.Pending /\
       forall icon, icon <> "" -> IconLoader.getSrc icon this = Promise.Pending) /\
      (forall p, IconLoader.first_prefix prefixes = Some p ->
       p <> "" /\
       IconLoader.isPrefixSet this = true /\
       IconLoader.getCdnPrefix this = Promise.Fulfilled p /\
       forall icon, icon <> "" ->
         IconLoader.getSrc icon this = Promise.Fulfilled (p +:+ icon +:+ ".svg"))).
Proof.
  split; [|split].
  - intros this prefix Hne.
    destruct (IconLoaderFacts.setCdnPrefix_nonempty prefix this Hne) as [Hc Hs].
    split; [exact Hs|]. unfold IconLoader.getCdnPrefix. rewrite Hc.
    unfold Deferred.resolve, Deferred.isResolved. split.
    + intros ->. reflexivity.
    + intros Hrej. destruct (Deferred.promise (IconLoader.cdnPrefix this)) eqn:E;
        simpl; try rewrite E; try reflexivity.
      by destruct (Hrej reason).
  - apply IconLoaderFacts.setCdnPrefix_empty.
  - intros prefixes this.
    pose proof (IconLoaderFacts.after_prefixes_first prefixes IconLoader.create eq_refl) as H.
    fold this in H.
    assert (forall p, IconLoader.first_prefix prefixes = Some p -> p <> "") as Hfirst.
    { intros p Hp. unfold IconLoader.first_prefix in Hp.
      apply head_Some_elem_of, list_elem_of_filter in Hp. tauto. }
    split; [|split].
    + intros r. destruct (IconLoader.first_prefix prefixes).
      * destruct H as [-> _]. discriminate.
      * rewrite H. discriminate.
    + intros Hall.
      assert (IconLoader.first_prefix prefixes = None) as Hnone.
      { destruct (IconLoader.first_prefix prefixes) as [p|] eqn:E; [|done].
        exfalso. apply (Hfirst p eq_refl).
        unfold IconLoader.first_prefix in E.
        apply head_Some_elem_of, list_elem_of_filter in E.
        rewrite Forall_forall in Hall. apply Hall, E. }
      rewrite Hnone in H. rewrite H. repeat split.
      intros icon Hicon. unfold IconLoader.getSrc.
      apply JSFacts.truthy_string_true in Hicon. by rewrite Hicon.
    + intros p Hp. rewrite Hp in H. destruct H as [Hful Hset].
      split; [by apply Hfirst|]. split; [done|]. split; [done|].
      intros icon Hicon. unfold IconLoader.getSrc.
      apply JSFacts.truthy_string_true in Hicon. rewrite Hicon, Hful. reflexivity.
Qed.

(** ** CDNLoader *)

Module CDNLoaderFacts.
Import CDNLoader.

Lemma invariant_create : invariant create.
Proof. split; simpl; intros *; by rewrite lookup_empty. Qed.

Lemma load_empty this : load_body "" this = (None, this).
Proof. reflexivity. Qed.

Lemma load_cached src p this :
  src <> "" -> responseCache this !! src = Some p -> load_body src this = (Some p, this).
Proof.
  intros Hsrc Hp. unfold load_body.
  apply JSFacts.truthy_string_true in Hsrc. rewrite Hsrc.
  rewrite bool_decide_eq_true_2 by (rewrite Hp; eauto). simpl. by rewrite Hp.
Qed.

Lemma load_fresh src this :
  src <> "" -> responseCache this !! src = None ->
  load_body src this =
    (Some (next_promise this),
     {| responseCache := <[src := next_promise this]> (responseCache this);
        cdnPrefix := cdnPrefix this;
        fetching := <[next_promise this := src]> (fetching this);
        settled := settled this;
        next_promise := S (next_promise this) |}).
Proof.
  intros Hsrc Hp. unfold load_body.
  apply JSFacts.truthy_string_true in Hsrc. rewrite Hsrc.
  rewrite bool_decide_eq_false_2 by (rewrite Hp; intros [? ?]; discriminate).
  simpl. by rewrite lookup_insert_eq.
Qed.

Lemma invariant_load src this : invariant this -> invariant (snd (load_body src this)).
Proof.
  intros Hinv. destruct (decide (src = "")) as [->|Hsrc]; [done|].
  destruct (responseCache this !! src) as [p|] eqn:Hc.
  - by rewrite (load_cached src p this Hsrc Hc).
  - rewrite (load_fresh src this Hsrc Hc). split; simpl.
    + intros p href. rewrite lookup_insert. case_decide as Hp.
      * intros [= <-]. subst p. by rewrite lookup_insert_eq.
      * intros Hf. pose proof (inv_fetching _ Hinv _ _ Hf) as Hcache.
        rewrite lookup_insert_ne; [done|]. intros <-. congruence.
    + intros href p. rewrite lookup_insert. case_decide.
      * intros [= <-]. lia.
      * intros Hh. pose proof (inv_cache_old _ Hinv _ _ Hh). lia.
    + intros p href. rewrite lookup_insert. case_decide.
      * intros _. subst p. lia.
      * intros Hf. pose proof (inv_fetching_old _ Hinv _ _ Hf). lia.
    + intros p r Hs. pose proof (inv_settled_old _ Hinv _ _ Hs). lia.
Qed.

Lemma invariant_step e this : invariant this -> invariant (step e this).
Proof.
  intros Hinv. destruct e as [src|prefix|p response|p e]; simpl.
  - by apply invariant_load.
  - by destruct Hinv.
  - unfold loadContent_fetched. destruct (fetching this !! p) as [href|] eqn:Hp; [|done].
    split; simpl.
    + intros q h. rewrite lookup_delete. case_decide; [done|]. apply Hinv.
    + apply Hinv.
    + intros q h. rewrite lookup_delete. case_decide; [done|]. apply Hinv.
    + intros q r. rewrite lookup_insert. case_decide.
      * intros _. subst q. by apply (inv_fetching_old _ Hinv _ href).
      * apply Hinv.
  - unfold loadContent_caught. destruct (fetching this !! p) as [href|] eqn:Hp; [|done].
    split; simpl.
    + intros q h. rewrite lookup_delete. case_decide as Hq; [done|]. intros Hf.
      pose proof (inv_fetching _ Hinv _ _ Hf) as Hc.
      rewrite lookup_delete_ne; [done|]. intros <-.
      pose proof (inv_fetching _ Hinv _ _ Hp). congruence.
    + intros h q. rewrite lookup_delete. case_decide; [done|]. apply Hinv.
    + intros q h. rewrite lookup_delete. case_decide; [done|]. apply Hinv.
    + intros q r. rewrite lookup_insert. case_decide.
      * intros _. subst q. by apply (inv_fetching_old _ Hinv _ href).
      * apply Hinv.
Qed.

Lemma reachable_invariant this : reachable this -> invariant this.
Proof.
  induction 1 as [|e this _ IH]; [apply invariant_create|by apply invariant_step].
Qed.

Lemma reachable_run es : forall this, reachable this -> reachable (run es this).
Proof.
  induction es as [|e es IH]; intros this Hr; [done|].
  simpl. apply IH. by constructor.
Qed.

(** A step that takes the promise [p] of [src] out of the cache is the throw
    of the fetch that [p] awaits. *)
Lemma step_evicts e src p this :
  invariant this ->
  responseCache this !! src = Some p ->
  responseCache (step e this) !! src <> Some p ->
  exists err, e = FetchThrows p err /\ fetching this !! p = Some src.
Proof.
  intros Hinv Hc Hgone. destruct e as [s|prefix|q response|q e]; simpl in Hgone.
  - exfalso. apply Hgone. destruct (decide (s = "")) as [->|Hs]; [done|].
    destruct (responseCache this !! s) as [p'|] eqn:Hs'.
    + by rewrite (load_cached s p' this Hs Hs').
    + rewrite (load_fresh s this Hs Hs'). simpl.
      rewrite lookup_insert_ne; [done|]. intros <-. congruence.
  - done.
  - exfalso. apply Hgone. unfold loadContent_fetched.
    by destruct (fetching this !! q).
  - unfold loadContent_caught in Hgone.
    destruct (fetching this !! q) as [href|] eqn:Hq; [|done].
    simpl in Hgone. destruct (decide (href = src)) as [->|Hne].
    + pose proof (inv_fetching _ Hinv _ _ Hq) as Hq'.
      assert (q = p) as -> by congruence. eauto.
    + exfalso. apply Hgone. by rewrite lookup_delete_ne.
Qed.

Lemma step_keeps e src p this :
  invariant this ->
  responseCache this !! src = Some p ->
  (forall err, e <> FetchThrows p err) ->
  responseCache (step e this) !! src = Some p.
Proof.
  intros Hinv Hc Hne.
  destruct (decide (responseCache (step e this) !! src = Some p)) as [|Hgone]; [done|].
  destruct (step_evicts e src p this Hinv Hc Hgone) as (err & -> & _).
  by destruct (Hne err).
Qed.

Lemma run_keeps es : forall src p this,
  invariant this ->
  responseCache this !! src = Some p ->
  Forall (fun e => forall err, e <> FetchThrows p err) es ->
  responseCache (run es this) !! src = Some p.
Proof.
  induction es as [|e es IH]; intros src p this Hinv Hc Hall; [done|].
  inversion Hall as [|? ? He Hes]; subst. simpl.
  apply IH; [by apply invariant_step|by apply step_keeps|done].
Qed.

Lemma throw_evicts p err src this :
  fetching this !! p = Some src ->
  responseCache (step (FetchThrows p err) this) !! src = None.
Proof.
  intros Hp. simpl. unfold loadContent_caught. rewrite Hp. simpl.
  apply lookup_delete_eq.
Qed.

End CDNLoaderFacts.

(** The body of [load] with the empty string gives undefined and changes
    nothing.  For a non-empty [src] of a loader that can come about: a cached
    promise is the completion value and nothing is fetched; the promise of a
    load that is still pending is the cached one; whatever happens next
    (further loads, fetches completing, other fetches failing), as long as the
    fetch behind the cached promise does not throw, the body keeps completing
    with that same promise without fetching; an entry leaves the cache only
    by the throw of its own fetch, which does evict it; and with no entry the
    body starts a fetch for a promise that did not exist before and caches
    it. *)
Lemma load_body_keeps_cached_promise :
  (forall this : CDNLoader.t, CDNLoader.load_body "" this = (None, this)) /\
  (forall (this : CDNLoader.t) (src : string),
      CDNLoader.reachable this -> src <> "" ->
      (forall p, CDNLoader.responseCache this !! src = Some p ->
                 CDNLoader.load_body src this = (Some p, this)) /\
      (forall p, CDNLoader.fetching this !! p = Some src ->
                 CDNLoader.responseCache this !! src = Some p) /\
      (forall p es,
          CDNLoader.responseCache this !! src = Some p ->
          Forall (fun e => forall err, e <> CDNLoader.FetchThrows p err) es ->
          CDNLoader.load_body src (CDNLoader.run es this) = (Some p, CDNLoader.run es this)) /\
      (forall p e,
          CDNLoader.responseCache this !! src = Some p ->
          CDNLoader.responseCache (CDNLoader.step e this) !! src <> Some p ->
          exists err, e = CDNLoader.FetchThrows p err /\
                      CDNLoader.fetching this !! p = Some src) /\
      (forall p err,
          CDNLoader.fetching this !! p = Some src ->
          CDNLoader.responseCache
            (CDNLoader.step (CDNLoader.FetchThrows p err) this) !! src = None) /\
      (CDNLoader.responseCache this !! src = None ->
       let p := CDNLoader.next_promise this in
       let this' := snd (CDNLoader.load_body src this) in
       fst (CDNLoader.load_body src this) = Some p /\
       CDNLoader.fetching this !! p = None /\
       CDNLoader.settled this !! p = None /\
       (forall href, CDNLoader.responseCache this !! href <> Some p) /\
       CDNLoader.fetching this' !! p = Some src /\
       CDNLoader.responseCache this' !! src = Some p)).
Proof.
  split; [apply CDNLoaderFacts.load_empty|].
  intros this src Hreach Hsrc.
  pose proof (CDNLoaderFacts.reachable_invariant this Hreach) as Hinv.
  split_and!.
  - intros p Hp. by apply CDNLoaderFacts.load_cached.
  - intros p Hp. by apply (CDNLoader.inv_fetching _ Hinv).
  - intros p es Hp Hes. apply CDNLoaderFacts.load_cached; [done|].
    by apply CDNLoaderFacts.run_keeps.
  - intros p e. by apply CDNLoaderFacts.step_evicts.
  - intros p err. apply CDNLoaderFacts.throw_evicts.
  - intros Hnone p this'. subst p this'.
    rewrite (CDNLoaderFacts.load_fresh src this Hsrc Hnone). simpl.
    split_and!; [done| | | |apply lookup_insert_eq|apply lookup_insert_eq].
    + destruct (CDNLoader.fetching this !! CDNLoader.next_promise this) eqn:E; [|done].
      pose proof (CDNLoader.inv_fetching_old _ Hinv _ _ E). lia.
    + destruct (CDNLoader.settled this !! CDNLoader.next_promise this) eqn:E; [|done].
      pose proof (CDNLoader.inv_settled_old _ Hinv _ _ E). lia.
    + intros href E. pose proof (CDNLoader.inv_cache_old _ Hinv _ _ E). lia.
Qed.

(** ** The promises [load] hands out *)

Module CDNLoaderHeapFacts.
Import CDNLoader.

Lemma load_unfold src h :
  load src h
  = (LoadPromise (length (handed h)),
     {| loader := snd (load_body src (loader h));
        handed := handed h ++ [fst (load_body src (loader h))] |}).
Proof. unfold load. by destruct (load_body src (loader h)). Qed.

Lemma loader_heap_step e h : loader (heap_step e h) = step e (loader h).
Proof. destruct e; simpl; try done. by rewrite load_unfold. Qed.

Lemma loader_heap_run es : forall h, loader (heap_run es h) = run es (loader h).
Proof.
  induction es as [|e es IH]; intros h; [done|].
  simpl. by rewrite IH, loader_heap_step.
Qed.

Lemma handed_new src h :
  handed (snd (load src h)) !! length (handed h) = Some (fst (load_body src (loader h))).
Proof. rewrite load_unfold. simpl. by apply list_lookup_middle. Qed.

Lemma handed_kept src h n v :
  handed h !! n = Some v -> handed (snd (load src h)) !! n = Some v.
Proof. intros Hn. rewrite load_unfold. simpl. by apply lookup_app_l_Some. Qed.

End CDNLoaderHeapFacts.

(** C9, as stated, fails: [load] is async, so two calls for one address
    return two different promises, neither of them the promise the cache
    holds for the address (both are resolved with it), and the call with the
    empty string returns a promise, resolved with undefined, rather than
    undefined. *)
Lemma C9_load_returns_a_new_promise_each_call :
  let first := CDNLoader.load "icon.svg" CDNLoader.new_heap in
  let second := CDNLoader.load "icon.svg" (snd first) in
  let empty := CDNLoader.load "" CDNLoader.new_heap in
  fst first = CDNLoader.LoadPromise 0 /\
  fst second = CDNLoader.LoadPromise 1 /\
  fst first <> fst second /\
  CDNLoader.responseCache (CDNLoader.loader (snd second)) !! "icon.svg" = Some 0 /\
  fst first <> CDNLoader.ContentPromise 0 /\
  fst second <> CDNLoader.ContentPromise 0 /\
  CDNLoader.handed (snd second) = [Some 0; Some 0] /\
  CDNLoader.loader (snd second) = CDNLoader.loader (snd first) /\
  fst empty = CDNLoader.LoadPromise 0 /\
  CDNLoader.handed (snd empty) = [None].
Proof. cbv zeta. by split_and!; vm_compute. Qed.

(** C9, amended: every call of [load] returns a promise of its own, one that
    no earlier call returned and that is no promise of the cache, and leaves
    the promises of earlier calls as they were.  With the empty string the
    promise is resolved with undefined and the loader is unchanged.  For a
    non-empty [src] of a loader that can come about: the promise is resolved
    with the promise the cache holds for [src] after the call; a cached
    promise is the one it is resolved with, and nothing is fetched; the
    promise of a load that is still pending is the cached one; whatever
    happens next (further loads, fetches completing, other fetches failing),
    as long as the fetch behind the cached promise does not throw, the
    promise of [load(src)] keeps being resolved with that same cached promise
    without fetching; an entry leaves the cache only by the throw of its own
    fetch, which does evict it; and with no entry [load(src)] starts a fetch
    for a [loadContent] promise that did not exist before, caches it and
    resolves its own promise with it. *)
Theorem C9_load_resolves_with_cached_promise :
  (forall (h : CDNLoader.heap) (src : string),
      let n := length (CDNLoader.handed h) in
      fst (CDNLoader.load src h) = CDNLoader.LoadPromise n /\
      CDNLoader.handed h !! n = None /\
      (forall p, fst (CDNLoader.load src h) <> CDNLoader.ContentPromise p) /\
      (forall m v, CDNLoader.handed h !! m = Some v ->
                   CDNLoader.handed (snd (CDNLoader.load src h)) !! m = Some v)) /\
  (forall h : CDNLoader.heap,
      CDNLoader.handed (snd (CDNLoader.load "" h)) !! length (CDNLoader.handed h)
      = Some None /\
      CDNLoader.loader (snd (CDNLoader.load "" h)) = CDNLoader.loader h) /\
  (forall (h : CDNLoader.heap) (src : string),
      CDNLoader.reachable (CDNLoader.loader h) -> src <> "" ->
      let n := length (CDNLoader.handed h) in
      let h' := snd (CDNLoader.load src h) in
      (exists p,
          CDNLoader.responseCache (CDNLoader.loader h') !! src = Some p /\
          CDNLoader.handed h' !! n = Some (Some p)) /\
      (forall p, CDNLoader.responseCache (CDNLoader.loader h) !! src = Some p ->
                 CDNLoader.handed h' !! n = Some (Some p) /\
                 CDNLoader.loader h' = CDNLoader.loader h) /\
      (forall p, CDNLoader.fetching (CDNLoader.loader h) !! p = Some src ->
                 CDNLoader.responseCache (CDNLoader.loader h) !! src = Some p) /\
      (forall p es,
          CDNLoader.responseCache (CDNLoader.loader h) !! src = Some p ->
          Forall (fun e => forall err, e <> CDNLoader.FetchThrows p err) es ->
          let later := CDNLoader.heap_run es h in
          CDNLoader.handed (snd (CDNLoader.load src later))
            !! length (CDNLoader.handed later) = Some (Some p) /\
          CDNLoader.loader (snd (CDNLoader.load src later)) = CDNLoader.loader later) /\
      (forall p e,
          CDNLoader.responseCache (CDNLoader.loader h) !! src = Some p ->
          CDNLoader.responseCache (CDNLoader.loader (CDNLoader.heap_step e h)) !! src
          <> Some p ->
          exists err, e = CDNLoader.FetchThrows p err /\
                      CDNLoader.fetching (CDNLoader.loader h) !! p = Some src) /\
      (forall p err,
          CDNLoader.fetching (CDNLoader.loader h) !! p = Some src ->
          CDNLoader.responseCache
            (CDNLoader.loader (CDNLoader.heap_step (CDNLoader.FetchThrows p err) h))
            !! src = None) /\
      (CDNLoader.responseCache (CDNLoader.loader h) !! src = None ->
       let p := CDNLoader.next_promise (CDNLoader.loader h) in
       CDNLoader.handed h' !! n = Some (Some p) /\
       CDNLoader.fetching (CDNLoader.loader h) !! p = None /\
       CDNLoader.settled (CDNLoader.loader h) !! p = None /\
       (forall href, CDNLoader.responseCache (CDNLoader.loader h) !! href <> Some p) /\
       CDNLoader.fetching (CDNLoader.loader h') !! p = Some src /\
       CDNLoader.responseCache (CDNLoader.loader h') !! src = Some p)).
Proof.
  destruct load_body_keeps_cached_promise as [Hempty Hbody].
  split_and!.
  - intros h src n. subst n. split_and!.
    + by rewrite CDNLoaderHeapFacts.load_unfold.
    + by apply lookup_ge_None_2.
    + intros p. by rewrite CDNLoaderHeapFacts.load_unfold.
    + intros m v. apply CDNLoaderHeapFacts.handed_kept.
  - intros h. rewrite CDNLoaderHeapFacts.handed_new, CDNLoaderHeapFacts.load_unfold.
    by rewrite Hempty.
  - intros h src Hreach Hsrc n h'. subst n h'.
    destruct (Hbody (CDNLoader.loader h) src Hreach Hsrc)
      as (Hcached & Hpending & Hlater & Honly & Hevict & Hfresh).
    split_and!.
    + rewrite CDNLoaderHeapFacts.handed_new, CDNLoaderHeapFacts.load_unfold. simpl.
      destruct (CDNLoader.responseCache (CDNLoader.loader h) !! src) as [p|] eqn:Hc.
      * exists p. by rewrite (Hcached p eq_refl).
      * destruct (Hfresh eq_refl) as (Hfst & _ & _ & _ & _ & Hc').
        exists (CDNLoader.next_promise (CDNLoader.loader h)). by rewrite Hfst.
    + intros p Hp.
      rewrite CDNLoaderHeapFacts.handed_new, CDNLoaderHeapFacts.load_unfold.
      by rewrite (Hcached p Hp).
    + apply Hpending.
    + intros p es Hp Hes later. subst later.
      rewrite CDNLoaderHeapFacts.handed_new, CDNLoaderHeapFacts.load_unfold.
      rewrite CDNLoaderHeapFacts.loader_heap_run. by rewrite (Hlater p es Hp Hes).
    + intros p e. rewrite CDNLoaderHeapFacts.loader_heap_step. apply Honly.
    + intros p err. rewrite CDNLoaderHeapFacts.loader_heap_step. apply Hevict.
    + intros Hnone p. subst p.
      destruct (Hfresh Hnone) as (Hfst & Hf & Hs & Hc & Hf' & Hc').
      rewrite CDNLoaderHeapFacts.handed_new, CDNLoaderHeapFacts.load_unfold. simpl.
      by rewrite Hfst.
Qed.

(** ** Tree node handles, for any manager *)

Module TreeNodeFacts.
Import TreeNodeAPI.

Lemma run_bind {S A B} (h : handler S) (p : Prog A) (f : A -> Prog B) (s : S) :
  run h (bind p f) s = let '(a, s') := run h p s in run h (f a) s'.
Proof.
  revert s. induction p as [a|X c k IH]; intros s; simpl; [done|].
  destruct (h X c s) as [x s']. apply IH.
Qed.

Lemma every_call_bind {A B} Q (p : Prog A) (f : A -> Prog B) :
  every_call Q p -> (forall a, every_call Q (f a)) -> every_call Q (bind p f).
Proof.
  intros Hp Hf. induction p as [a|X c k IH]; simpl; [apply Hf|].
  destruct Hp as [Hc Hk]. split; [done|]. intros a. by apply IH.
Qed.

Lemma every_call_mapM {A B} Q (f : A -> Prog B) (l : list A) :
  (forall a, every_call Q (f a)) -> every_call Q (mapM f l).
Proof.
  intros Hf. induction l as [|a l IH]; simpl; [done|].
  apply every_call_bind; [apply Hf|]. intros b.
  apply every_call_bind; [apply IH|]. by intros bs.
Qed.

(** What every call of [p] preserves, running [p] preserves. *)
Lemma run_every_call {S R} (h : handler S) Q (Rel : S -> S -> Prop) (p : Prog R) :
  (forall s, Rel s s) ->
  (forall s1 s2 s3, Rel s1 s2 -> Rel s2 s3 -> Rel s1 s3) ->
  (forall X (c : Call X) s, Q X c -> Rel s (snd (h X c s))) ->
  every_call Q p ->
  forall s, Rel s (snd (run h p s)).
Proof.
  intros Hrefl Htrans Hcall. induction p as [r|X c k IH]; intros Hp s; simpl; [done|].
  destruct Hp as [Hc Hk]. specialize (Hcall X c s Hc).
  destruct (h X c s) as [x s']. simpl in Hcall.
  eapply Htrans; [exact Hcall|]. by apply IH.
Qed.

Lemma getter_reads_coerced {S} (h : handler S) (s : S) (this : TreeNode) prop :
  TreeNode.reads_coerced h s this prop
    (bind (TreeNode.getPropertyValue this prop) (fun v => Ret (JS.to_boolean v))).
Proof.
  unfold TreeNode.reads_coerced. simpl.
  destruct (h JS.value (GetItemPropertyValue (node_item this) prop) s) as [v s'].
  simpl. split; [done|]. by intros ->.
Qed.

End TreeNodeFacts.

(** C5: for any manager, the handle's [selected] getter makes the one call
    [getItemCheckedState] for its item and answers true exactly when the
    manager's answer is CHECKED, so INDETERMINATE and UNCHECKED read as false;
    assigning [selected = true] is the call [checkItem] for the item and
    [selected = false] the call [uncheckItem], and nothing else. *)
Theorem C5_selected_reads_checked_state :
  forall (S : Type) (h : TreeNodeAPI.handler S) (this : TreeNode) (s : S),
    let x := node_item this in
    let answer := h _ (TreeNodeAPI.GetItemCheckedState x) s in
    TreeNodeAPI.trace h (TreeNode.get_selected this) s
      = [existT _ (TreeNodeAPI.GetItemCheckedState x)] /\
    snd (TreeNodeAPI.run h (TreeNode.get_selected this) s) = snd answer /\
    (fst (TreeNodeAPI.run h (TreeNode.get_selected this) s) = true <->
     fst answer = CHECKED) /\
    (fst answer = INDETERMINATE \/ fst answer = UNCHECKED ->
     fst (TreeNodeAPI.run h (TreeNode.get_selected this) s) = false) /\
    TreeNode.set_selected this true = TreeNodeAPI.call (TreeNodeAPI.CheckItem x) /\
    TreeNode.set_selected this false = TreeNodeAPI.call (TreeNodeAPI.UncheckItem x) /\
    TreeNodeAPI.run h (TreeNode.set_selected this true) s
      = h _ (TreeNodeAPI.CheckItem x) s /\
    TreeNodeAPI.run h (TreeNode.set_selected this false) s
      = h _ (TreeNodeAPI.UncheckItem x) s.
Proof.
  intros S h this s x answer. subst x answer. simpl.
  destruct (h CheckedState (TreeNodeAPI.GetItemCheckedState (node_item this)) s)
    as [cs s'] eqn:E.
  simpl. split_and!; try done.
  - apply bool_decide_eq_true.
  - intros [-> | ->]; by apply bool_decide_eq_false.
  - by destruct (h unit (TreeNodeAPI.CheckItem (node_item this)) s) as [[] ?].
  - by destruct (h unit (TreeNodeAPI.UncheckItem (node_item this)) s) as [[] ?].
Qed.

(** C6: for any manager, the handle's [readonly], [disabled], [highlighted]
    and [hidden] getters make the composer's property read for their field of
    the item and return its boolean coercion; so when that read gives
    undefined, the value of a field that the raw item lacks, each of them
    returns false. *)
Theorem C6_boolean_getters_coerce :
  forall (S : Type) (h : TreeNodeAPI.handler S) (this : TreeNode) (s : S),
    TreeNode.reads_coerced h s this "readonly" (TreeNode.get_readonly this) /\
    TreeNode.reads_coerced h s this "disabled" (TreeNode.get_disabled this) /\
    TreeNode.reads_coerced h s this "highlighted" (TreeNode.get_highlighted this) /\
    TreeNode.reads_coerced h s this "hidden" (TreeNode.get_hidden this) /\
    JS.to_boolean JS.undefined = false.
Proof.
  intros S h this s.
  split_and!; try apply (TreeNodeFacts.getter_reads_coerced h s this).
  reflexivity.
Qed.

(** ** The modelled composer and manager *)

Module ComposerFacts.

Lemma read_write x key v c y key' :
  Composer.getItemPropertyValue (Composer.setItemPropertyValue x key v c) y key'
  = if decide (x = y /\ key = key') then v else Composer.getItemPropertyValue c y key'.
Proof.
  unfold Composer.getItemPropertyValue, Composer.setItemPropertyValue. simpl.
  destruct (decide (x = y)) as [->|Hxy].
  - rewrite lookup_insert_eq. simpl. destruct (decide (key = key')) as [->|Hk].
    + rewrite lookup_insert_eq. by rewrite decide_True.
    + rewrite lookup_insert_ne by done. rewrite decide_False by tauto.
      destruct (Composer.fields c !! y); simpl; [done|]. by rewrite lookup_empty.
  - rewrite lookup_insert_ne by done. by rewrite decide_False by tauto.
Qed.

Lemma read_write_same x key v c :
  Composer.getItemPropertyValue (Composer.setItemPropertyValue x key v c) x key = v.
Proof. rewrite read_write. by rewrite decide_True. Qed.

Lemma read_write_other_key x key v c y key' :
  key <> key' ->
  Composer.getItemPropertyValue (Composer.setItemPropertyValue x key v c) y key'
  = Composer.getItemPropertyValue c y key'.
Proof. intros Hk. rewrite read_write. by rewrite decide_False by tauto. Qed.

End ComposerFacts.

Module TreeManagerFacts.
Import TreeNodeAPI TreeManagerAPI.

Lemma same_field_refl prop m : same_field prop m m.
Proof. by intros x. Qed.

Lemma same_field_trans prop m1 m2 m3 :
  same_field prop m1 m2 -> same_field prop m2 m3 -> same_field prop m1 m3.
Proof. intros H12 H23 x. by rewrite H23, H12. Qed.

Lemma clear_stamps_forest st c :
  Composer.forest (TreeManager.clear_stamps st c) = Composer.forest c.
Proof.
  unfold TreeManager.clear_stamps. generalize (Composer.items c) as l.
  intros l. revert c. induction l as [|x l IH]; intros c; simpl; [done|].
  rewrite IH. by case_bool_decide.
Qed.

Lemma clear_stamps_read st c y prop :
  prop <> "selectedAt" ->
  Composer.getItemPropertyValue (TreeManager.clear_stamps st c) y prop
  = Composer.getItemPropertyValue c y prop.
Proof.
  intros Hprop. unfold TreeManager.clear_stamps. generalize (Composer.items c) as l.
  intros l. revert c. induction l as [|x l IH]; intros c; simpl; [done|].
  rewrite IH. case_bool_decide; [done|].
  by apply ComposerFacts.read_write_other_key.
Qed.

Lemma checkItem_forest x m :
  Composer.forest (TreeManager.composer (TreeManager.checkItem x m))
  = Composer.forest (TreeManager.composer m).
Proof.
  unfold TreeManager.checkItem. destruct (Composer.isItem _ x); [|done].
  simpl. apply clear_stamps_forest.
Qed.

Lemma uncheckItem_forest x m :
  Composer.forest (TreeManager.composer (TreeManager.uncheckItem x m))
  = Composer.forest (TreeManager.composer m).
Proof.
  unfold TreeManager.uncheckItem. destruct (Composer.isItem _ x); [|done].
  simpl. apply clear_stamps_forest.
Qed.

Lemma checkItem_same_field prop x m :
  prop <> "selectedAt" -> same_field prop m (TreeManager.checkItem x m).
Proof.
  intros Hprop y. unfold TreeManager.checkItem.
  destruct (Composer.isItem _ x); [|done]. simpl.
  rewrite ComposerFacts.read_write_other_key by done.
  by apply clear_stamps_read.
Qed.

Lemma uncheckItem_same_field prop x m :
  prop <> "selectedAt" -> same_field prop m (TreeManager.uncheckItem x m).
Proof.
  intros Hprop y. unfold TreeManager.uncheckItem.
  destruct (Composer.isItem _ x); [|done]. simpl.
  by apply clear_stamps_read.
Qed.

(** A call that is no composer write of [prop] leaves that field of every
    raw item as it is, unless it is a selection mutator, which may restamp. *)
Lemma handle_same_field prop X (c : Call X) m :
  spares prop X c ->
  prop <> "selectedAt" \/ no_selection X c ->
  same_field prop m (snd (TreeManagerAPI.handle X c m)).
Proof.
  intros Hspare Hsel y.
  destruct c; simpl; try done.
  - unfold TreeManager.with_composer. simpl.
    rewrite ComposerFacts.read_write. rewrite decide_False; [done|].
    intros [-> ->]. by apply (Hspare y).
  - unfold TreeManager.expandItem. by destruct (Composer.isItem _ x).
  - unfold TreeManager.collapseItem. by destruct (Composer.isItem _ x).
  - destruct Hsel as [Hp|[]]. by apply checkItem_same_field.
  - destruct Hsel as [Hp|[]]. by apply uncheckItem_same_field.
  - unfold TreeManager.getTreeNode. by destruct (TreeManager.nodes m !! x).
Qed.

(** No call removes or replaces a cached handle. *)
Lemma handle_keeps_node X (c : Call X) m x n :
  TreeManager.nodes m !! x = Some n ->
  TreeManager.nodes (snd (TreeManagerAPI.handle X c m)) !! x = Some n.
Proof.
  intros Hn. destruct c; simpl; try done.
  - unfold TreeManager.expandItem. by destruct (Composer.isItem _ _).
  - unfold TreeManager.collapseItem. by destruct (Composer.isItem _ _).
  - unfold TreeManager.checkItem. by destruct (Composer.isItem _ _).
  - unfold TreeManager.uncheckItem. by destruct (Composer.isItem _ _).
  - unfold TreeManager.getTreeNode.
    destruct (TreeManager.nodes m !! x0) eqn:E; simpl; [done|].
    rewrite lookup_insert_ne; [done|]. intros <-. congruence.
Qed.

Lemma after_keeps_node calls : forall m x n,
  TreeManager.nodes m !! x = Some n ->
  TreeManager.nodes (TreeManagerAPI.after calls m) !! x = Some n.
Proof.
  induction calls as [|[X c] calls IH]; intros m x n Hn; [done|].
  simpl. apply IH. by apply handle_keeps_node.
Qed.

Lemma getTreeNode_cached x n m :
  TreeManager.nodes m !! x = Some n -> TreeManager.getTreeNode x m = (n, m).
Proof. intros Hn. unfold TreeManager.getTreeNode. by rewrite Hn. Qed.

Lemma getTreeNode_caches x m :
  TreeManager.nodes (snd (TreeManager.getTreeNode x m)) !! x
  = Some (fst (TreeManager.getTreeNode x m)).
Proof.
  unfold TreeManager.getTreeNode. destruct (TreeManager.nodes m !! x) eqn:E; simpl.
  - done.
  - apply lookup_insert_eq.
Qed.

(** Asking for the handles of a series of items caches every one of them,
    keeps what was cached and leaves the composer alone. *)
Lemma getTreeNodes_spec xs : forall m,
  let r := run handle (mapM (fun x => call (GetTreeNode x)) xs) m in
  Forall2 (fun x n => TreeManager.nodes (snd r) !! x = Some n) xs (fst r) /\
  (forall y n, TreeManager.nodes m !! y = Some n ->
               TreeManager.nodes (snd r) !! y = Some n) /\
  TreeManager.composer (snd r) = TreeManager.composer m.
Proof.
  induction xs as [|x xs IH]; intros m; simpl; [by split_and!|].
  destruct (TreeManager.getTreeNode x m) as [n m1] eqn:Hx.
  rewrite TreeNodeFacts.run_bind.
  specialize (IH m1). simpl in IH.
  destruct (run handle (mapM (fun x => call (GetTreeNode x)) xs) m1) as [ns m2].
  simpl in *. destruct IH as (Hall & Hkeep & Hcomposer).
  pose proof (getTreeNode_caches x m) as Hcached. rewrite Hx in Hcached. simpl in Hcached.
  split_and!.
  - constructor; [by apply Hkeep|done].
  - intros y n' Hy. apply Hkeep.
    pose proof (handle_keeps_node _ (GetTreeNode x) m y n' Hy) as Hy'.
    simpl in Hy'. by rewrite Hx in Hy'.
  - rewrite Hcomposer. unfold TreeManager.getTreeNode in Hx.
    destruct (TreeManager.nodes m !! x); by injection Hx as <- <-.
Qed.

Lemma getTreeNodes_cached xs ns m :
  Forall2 (fun x n => TreeManager.nodes m !! x = Some n) xs ns ->
  run handle (mapM (fun x => call (GetTreeNode x)) xs) m = (ns, m).
Proof.
  induction 1 as [|x n xs ns Hx _ IH]; simpl; [done|].
  rewrite (getTreeNode_cached x n m Hx). rewrite TreeNodeFacts.run_bind. by rewrite IH.
Qed.

(** Asked again, the manager answers with the same handles and does not
    change. *)
Lemma getTreeNodes_again xs m :
  let r := run handle (mapM (fun x => call (GetTreeNode x)) xs) m in
  run handle (mapM (fun x => call (GetTreeNode x)) xs) (snd r) = r.
Proof.
  intros r. destruct (getTreeNodes_spec xs m) as (Hall & _ & _). fold r in Hall.
  rewrite (getTreeNodes_cached xs (fst r) (snd r) Hall). by destruct r.
Qed.

End TreeManagerFacts.

(** C3: [getTreeNode] answers with the cached handle of an item, creating
    and caching one on first use: a second call for the same item, straight
    away or after any further calls on the manager, answers with the very
    same handle; a handle already cached is answered without any change, and
    a first use builds a new handle for the item and adds it to the cache,
    leaving the other entries alone.  So the handle's [getAncestors],
    [getChildren] and [getDescendants], which wrap every item through
    [getTreeNode], give the same handles when asked again. *)
Theorem C3_getTreeNode_same_handle :
  forall (m : TreeManager.t) (x : item)
         (calls : list {X : Type & TreeNodeAPI.Call X}),
    let n := fst (TreeManager.getTreeNode x m) in
    let m1 := snd (TreeManager.getTreeNode x m) in
    TreeManager.getTreeNode x m1 = (n, m1) /\
    fst (TreeManager.getTreeNode x (TreeManagerAPI.after calls m1)) = n /\
    (forall n0, TreeManager.nodes m !! x = Some n0 -> n = n0 /\ m1 = m) /\
    (TreeManager.nodes m !! x = None ->
     n = {| node_ref := TreeManager.next_ref m; node_item := x |} /\
     TreeManager.nodes m1 !! x = Some n /\
     forall y, y <> x -> TreeManager.nodes m1 !! y = TreeManager.nodes m !! y) /\
    (forall (this : TreeNode) (wrapped : TreeNodeAPI.Prog (list TreeNode)),
        wrapped = TreeNode.getAncestors this \/
        wrapped = TreeNode.getChildren this \/
        (exists depth, wrapped = TreeNode.getDescendants this depth) ->
        let r := TreeNodeAPI.run TreeManagerAPI.handle wrapped m in
        TreeNodeAPI.run TreeManagerAPI.handle wrapped (snd r) = r).
Proof.
  intros m x calls n m1.
  pose proof (TreeManagerFacts.getTreeNode_caches x m) as Hcached.
  fold n m1 in Hcached. split_and!.
  5:{ intros this wrapped Hwrapped r. subst r.
      destruct Hwrapped as [-> | [-> | [depth ->]]]; simpl.
      - set (xs := TreeManager.getItemAncestors m (node_item this)).
        destruct (TreeManagerFacts.getTreeNodes_spec xs m) as (_ & _ & Hc).
        unfold TreeManager.getItemAncestors. rewrite Hc.
        apply TreeManagerFacts.getTreeNodes_again.
      - set (xs := TreeManager.getItemChildren m (node_item this)).
        destruct (TreeManagerFacts.getTreeNodes_spec xs m) as (_ & _ & Hc).
        unfold TreeManager.getItemChildren. rewrite Hc.
        apply TreeManagerFacts.getTreeNodes_again.
      - set (xs := TreeManager.getItemDescendants m (node_item this) depth).
        destruct (TreeManagerFacts.getTreeNodes_spec xs m) as (_ & _ & Hc).
        unfold TreeManager.getItemDescendants. rewrite Hc.
        apply TreeManagerFacts.getTreeNodes_again. }
  - by apply TreeManagerFacts.getTreeNode_cached.
  - erewrite TreeManagerFacts.getTreeNode_cached; [done|].
    by apply TreeManagerFacts.after_keeps_node.
  - intros n0 Hn0. subst n m1.
    by rewrite (TreeManagerFacts.getTreeNode_cached x n0 m Hn0).
  - intros Hnone. subst n m1. unfold TreeManager.getTreeNode in *.
    rewrite Hnone in *. simpl in *. split_and!; [done|done|].
    intros y Hy. by rewrite lookup_insert_ne.
Qed.

Module ExpansionFacts.

Lemma expandItem_composer x m :
  TreeManager.composer (TreeManager.expandItem x m) = TreeManager.composer m.
Proof. unfold TreeManager.expandItem. by destruct (Composer.isItem _ x). Qed.

Lemma expand_collapse x m :
  Composer.isItem (TreeManager.composer m) x = true ->
  TreeManager.isItemExpanded
    (TreeManager.collapseItem x (TreeManager.expandItem x m)) x = false.
Proof.
  intros Hx. unfold TreeManager.collapseItem. rewrite expandItem_composer, Hx.
  unfold TreeManager.isItemExpanded. simpl.
  apply bool_decide_eq_false.
  intros [_ Hx']%elem_of_difference. by apply Hx', elem_of_singleton.
Qed.

End ExpansionFacts.

(** C4, as the specification states it, fails: item B of the scenario tree,
    once expanded, reads as expanded; a further [expandItem] followed by
    [collapseItem] leaves it collapsed, not as it was before that
    [expandItem].  (Item 1 of the test data's [nestedData], which starts out
    expanded, fares the same.) *)
Lemma C4_round_trip_loses_expanded :
  let m := TreeManager.expandItem 1 (TreeManager.create Samples.abc true) in
  Composer.isItem (TreeManager.composer m) 1 = true /\
  TreeManager.isItemExpanded m 1 = true /\
  TreeManager.isItemExpanded
    (TreeManager.collapseItem 1 (TreeManager.expandItem 1 m)) 1 = false /\
  TreeManager.isItemExpanded
    (TreeManager.collapseItem 1 (TreeManager.expandItem 1 m)) 1
  <> TreeManager.isItemExpanded m 1.
Proof.
  assert (TreeManager.isItemExpanded
            (TreeManager.expandItem 1 (TreeManager.create Samples.abc true)) 1 = true)
    as Hbefore by reflexivity.
  cbv zeta. rewrite ExpansionFacts.expand_collapse by reflexivity.
  rewrite Hbefore. by split_and!.
Qed.

(** C4, amended: for every item of the tree and every starting expansion
    state, [expandItem(x)] followed by [collapseItem(x)] leaves
    [isItemExpanded(x)] false, also when done through the handle's [expanded]
    accessor; so the round trip gives back the value from before the
    expansion exactly when the item was collapsed to begin with. *)
Theorem C4_expand_then_collapse_is_collapsed :
  forall (m : TreeManager.t) (this : TreeNode),
    let x := node_item this in
    Composer.isItem (TreeManager.composer m) x = true ->
    let m' := TreeManager.collapseItem x (TreeManager.expandItem x m) in
    TreeManager.isItemExpanded m' x = false /\
    (TreeManager.isItemExpanded m' x = TreeManager.isItemExpanded m x <->
     TreeManager.isItemExpanded m x = false) /\
    fst (TreeNodeAPI.run TreeManagerAPI.handle
           (TreeNodeAPI.bind (TreeNode.set_expanded this true) (fun _ =>
            TreeNodeAPI.bind (TreeNode.set_expanded this false) (fun _ =>
            TreeNode.get_expanded this))) m) = false.
Proof.
  intros m this x Hx m'.
  pose proof (ExpansionFacts.expand_collapse x m Hx) as Hfalse. fold m' in Hfalse.
  split_and!; [done| |done].
  rewrite Hfalse. split; congruence.
Qed.

Lemma C4_expand_then_collapse_witness :
  let m := TreeManager.create Samples.nestedData true in
  TreeManager.isItemExpanded m 0 = true /\
  TreeManager.isItemExpanded
    (TreeManager.collapseItem 0 (TreeManager.expandItem 0 m)) 0 = false.
Proof.
  split; [reflexivity|].
  apply (C4_expand_then_collapse_is_collapsed
           (TreeManager.create Samples.nestedData true) (mkTreeNode 0 0)).
  reflexivity.
Defined.

Module HandleFacts.
Import TreeNodeAPI TreeManagerAPI.

Lemma setProperty_writes this prop v :
  writes_field this prop v (TreeNode.setProperty this prop v).
Proof.
  split; [done|]. intros m. simpl. apply ComposerFacts.read_write_same.
Qed.

Ltac member_calls :=
  repeat first
    [ progress unfold TreeNode.set_expanded, TreeNode.set_selected
    | progress simpl
    | apply TreeNodeFacts.every_call_bind
    | apply TreeNodeFacts.every_call_mapM
    | match goal with
      | |- forall _, _ => intro
      | |- _ /\ _ => split
      | |- True => exact I
      | |- context [match ?v with _ => _ end] => destruct v
      end ].

(** No member of the handle writes [hidden] or [selectedAt] through the
    composer, and only the [selected] setter calls a selection mutator. *)
Lemma invoke_spares o this prop :
  prop = "hidden" \/ prop = "selectedAt" ->
  every_call (spares prop) (TreeNode.invoke o this).
Proof.
  intros Hprop.
  destruct o; member_calls; try (unfold spares; simpl; destruct Hprop; subst; congruence).
Qed.

Lemma invoke_no_selection o this :
  (forall value, o <> TreeNode.SetSelected value) ->
  every_call TreeManagerAPI.no_selection (TreeNode.invoke o this).
Proof.
  intros Ho. destruct o; try (by member_calls).
  by destruct (Ho value).
Qed.

Lemma every_call_and {R} Q1 Q2 (p : Prog R) :
  every_call Q1 p -> every_call Q2 p ->
  every_call (fun X c => Q1 X c /\ Q2 X c) p.
Proof.
  induction p as [r|X c k IH]; simpl; [done|].
  intros [H1 K1] [H2 K2]. split; [done|]. intros a. by apply IH.
Qed.

Lemma hidden_kept o : member_keeps "hidden" o.
Proof.
  intros this m.
  apply (TreeNodeFacts.run_every_call TreeManagerAPI.handle (spares "hidden")).
  - apply TreeManagerFacts.same_field_refl.
  - apply TreeManagerFacts.same_field_trans.
  - intros X c s Hc. apply TreeManagerFacts.handle_same_field; [done|by left].
  - apply invoke_spares. by left.
Qed.

Lemma selectedAt_kept o :
  (forall value, o <> TreeNode.SetSelected value) -> member_keeps "selectedAt" o.
Proof.
  intros Ho this m.
  apply (TreeNodeFacts.run_every_call TreeManagerAPI.handle
           (fun X c => spares "selectedAt" X c /\ TreeManagerAPI.no_selection X c)).
  - apply TreeManagerFacts.same_field_refl.
  - apply TreeManagerFacts.same_field_trans.
  - intros X c s [Hc Hs]. apply TreeManagerFacts.handle_same_field; [done|by right].
  - apply every_call_and; [apply invoke_spares; by right|by apply invoke_no_selection].
Qed.

End HandleFacts.

(** C7, as stated, fails for [selectedAt]: assigning [selected = true]
    through the handle of item B of the scenario tree makes the manager stamp
    the raw item, whose [selectedAt] was undefined before and holds the stamp
    afterwards. *)
Lemma C7_selected_setter_stamps_selectedAt :
  let m := TreeManager.create Samples.abc true in
  let this := {| node_ref := 0; node_item := 1 |} in
  let m' := snd (TreeNodeAPI.run TreeManagerAPI.handle
                   (TreeNode.invoke (TreeNode.SetSelected true) this) m) in
  Composer.getItemPropertyValue (TreeManager.composer m) 1 "selectedAt" = JS.undefined /\
  Composer.getItemPropertyValue (TreeManager.composer m') 1 "selectedAt" = JS.num 0 /\
  ~ TreeManagerAPI.member_keeps "selectedAt" (TreeNode.SetSelected true).
Proof.
  cbv zeta. split_and!; [by vm_compute|by vm_compute|].
  intros Hkeeps.
  specialize (Hkeeps (mkTreeNode 0 1) (TreeManager.create Samples.abc true) 1).
  vm_compute in Hkeeps. discriminate.
Qed.

(** C7, amended: [TreeNode] has no setter for [hidden] or [selectedAt]: for
    any manager, no member of the handle issues a composer write of either
    field, while each of the setters of [icon], [label], [value], [readonly],
    [disabled] and [highlighted] is the one composer write of its own field
    of the handle's item, after which the field holds the assigned value.
    With the manager of the specification no member of the handle changes the
    [hidden] field of any raw item, and none but the [selected] setter changes
    a [selectedAt] field. *)
Theorem C7_hidden_and_selectedAt_have_no_setter :
  (forall (o : TreeNode.member) (this : TreeNode),
      TreeNodeAPI.every_call (TreeNodeAPI.spares "hidden") (TreeNode.invoke o this) /\
      TreeNodeAPI.every_call (TreeNodeAPI.spares "selectedAt") (TreeNode.invoke o this)) /\
  (forall this : TreeNode,
      (forall icon, TreeManagerAPI.writes_field this "icon"
                      (from_option JS.str JS.undefined icon)
                      (TreeNode.invoke (TreeNode.SetIcon icon) this)) /\
      (forall value, TreeManagerAPI.writes_field this "label" (JS.str value)
                       (TreeNode.invoke (TreeNode.SetLabel value) this)) /\
      (forall value, TreeManagerAPI.writes_field this "value" (JS.str value)
                       (TreeNode.invoke (TreeNode.SetValue value) this)) /\
      (forall value, TreeManagerAPI.writes_field this "readonly" (JS.bool value)
                       (TreeNode.invoke (TreeNode.SetReadonly value) this)) /\
      (forall value, TreeManagerAPI.writes_field this "disabled" (JS.bool value)
                       (TreeNode.invoke (TreeNode.SetDisabled value) this)) /\
      (forall value, TreeManagerAPI.writes_field this "highlighted" (JS.bool value)
                       (TreeNode.invoke (TreeNode.SetHighlighted value) this))) /\
  (forall o : TreeNode.member, TreeManagerAPI.member_keeps "hidden" o) /\
  (forall o : TreeNode.member,
      (forall value, o <> TreeNode.SetSelected value) ->
      TreeManagerAPI.member_keeps "selectedAt" o).
Proof.
  split_and!.
  - intros o this. split; apply HandleFacts.invoke_spares; auto.
  - intros this. split_and!; intros v; apply HandleFacts.setProperty_writes.
  - apply HandleFacts.hidden_kept.
  - apply HandleFacts.selectedAt_kept.
Qed.

(** ** Trees and the composer's structural queries *)

Module TreeFacts.

Lemma elem_of_flat_map {A B} (f : A -> list B) (l : list A) (y : B) :
  y ∈ flat_map f l <-> exists a, a ∈ l /\ y ∈ f a.
Proof.
  rewrite list_elem_of_In, in_flat_map.
  split; intros (a & Ha & Hy); exists a; by rewrite ?list_elem_of_In in *.
Qed.

Lemma elem_of_middle {A} (l1 l2 : list A) (a a' : A) :
  a' ∈ l1 ++ a :: l2 <-> a' = a \/ a' ∈ l1 ++ l2.
Proof. rewrite !elem_of_app, elem_of_cons. tauto. Qed.

Lemma NoDup_flat_map_split {A B} (f : A -> list B) l1 a l2 :
  NoDup (flat_map f (l1 ++ a :: l2)) ->
  NoDup (f a) /\ forall a' y, a' ∈ l1 ++ l2 -> y ∈ f a' -> y ∉ f a.
Proof.
  rewrite flat_map_app. simpl. rewrite !NoDup_app.
  intros (H1 & Hd & H2 & Hd2 & H3). split; [done|].
  intros a' y [Ha'|Ha']%elem_of_app Hy Hya.
  - apply (Hd y); [apply elem_of_flat_map; eauto|]. apply elem_of_app. by left.
  - apply (Hd2 y); [done|]. apply elem_of_flat_map; eauto.
Qed.

Lemma NoDup_flat_map_elem {A B} (f : A -> list B) l a :
  NoDup (flat_map f l) -> a ∈ l -> NoDup (f a).
Proof.
  intros Hnd (l1 & l2 & ->)%list_elem_of_split.
  by apply NoDup_flat_map_split in Hnd as [? _].
Qed.

Lemma first_some_skip {A B} (f : A -> option B) l1 l2 :
  Forall (fun a => f a = None) l1 -> first_some f (l1 ++ l2) = first_some f l2.
Proof.
  induction 1 as [|a l1 Ha _ IH]; simpl; [done|]. by rewrite Ha.
Qed.

Lemma first_some_Some {A B} (f : A -> option B) l b :
  first_some f l = Some b ->
  exists l1 a l2, l = l1 ++ a :: l2 /\ Forall (fun a' => f a' = None) l1 /\ f a = Some b.
Proof.
  induction l as [|a l IH]; simpl; [done|].
  destruct (f a) as [b'|] eqn:Ha.
  - intros [= ->]. exists [], a, l. by repeat split.
  - intros (l1 & a' & l2 & -> & Hnone & Ha')%IH.
    exists (a :: l1), a', l2. repeat split; [|done]. by constructor.
Qed.

Lemma first_some_None {A B} (f : A -> option B) l :
  Forall (fun a => f a = None) l -> first_some f l = None.
Proof.
  intros H. rewrite <- (app_nil_r l). by rewrite first_some_skip.
Qed.

Lemma root_in_items t : root t ∈ tree_items t.
Proof. destruct t. simpl. apply list_elem_of_here. Qed.

Lemma self_in_subtrees t : t ∈ subtrees t.
Proof. destruct t. simpl. apply list_elem_of_here. Qed.

Lemma tree_items_node i ks y :
  y ∈ tree_items (Node i ks) <-> y = i \/ exists k, k ∈ ks /\ y ∈ tree_items k.
Proof. simpl. by rewrite elem_of_cons, elem_of_flat_map. Qed.

Lemma subtrees_node i ks s :
  s ∈ subtrees (Node i ks) <-> s = Node i ks \/ exists k, k ∈ ks /\ s ∈ subtrees k.
Proof. simpl. by rewrite elem_of_cons, elem_of_flat_map. Qed.

(** The items of a subtree are items of the tree. *)
Lemma subtrees_items t : forall s y,
  s ∈ subtrees t -> y ∈ tree_items s -> y ∈ tree_items t.
Proof.
  induction t as [i ks IH] using tree_induction. intros s y Hs Hy.
  apply subtrees_node in Hs as [->|(k & Hk & Hs)]; [done|].
  apply tree_items_node. right. exists k. split; [done|].
  rewrite Forall_forall in IH. by apply (IH k Hk s).
Qed.

Lemma subtrees_trans t : forall s s',
  s ∈ subtrees t -> s' ∈ subtrees s -> s' ∈ subtrees t.
Proof.
  induction t as [i ks IH] using tree_induction. intros s s' Hs Hs'.
  apply subtrees_node in Hs as [->|(k & Hk & Hs)]; [done|].
  apply subtrees_node. right. exists k. split; [done|].
  rewrite Forall_forall in IH. by apply (IH k Hk s).
Qed.

Lemma locate_None x t : x ∉ tree_items t -> locate x t = None.
Proof.
  induction t as [i ks IH] using tree_induction. intros Hx. simpl.
  rewrite decide_False by (intros ->; apply Hx, (root_in_items (Node x ks))).
  rewrite first_some_None; [done|].
  rewrite Forall_forall in IH |- *. intros k Hk. apply IH; [done|].
  intros Hxk. apply Hx, tree_items_node. eauto.
Qed.

Lemma first_some_found {A B} (f : A -> option B) l a :
  a ∈ l -> is_Some (f a) -> is_Some (first_some f l).
Proof.
  intros Ha Hfa. induction l as [|a' l IH]; [by apply elem_of_nil in Ha|].
  simpl. destruct (f a') eqn:E; [eauto|].
  apply elem_of_cons in Ha as [->|Ha]; [|by apply IH].
  rewrite E in Hfa. by destruct Hfa.
Qed.

(** Every item of a tree is found in it. *)
Lemma locate_found x t : x ∈ tree_items t -> is_Some (locate x t).
Proof.
  induction t as [i ks IH] using tree_induction. intros Hx. simpl.
  destruct (decide (i = x)) as [->|Hix]; [eauto|].
  apply tree_items_node in Hx as [->|(k & Hk & Hx)]; [done|].
  rewrite Forall_forall in IH.
  destruct (first_some_found (locate x) ks k Hk (IH k Hk Hx)) as [[s p] ->]. eauto.
Qed.

(** What [locate] finds: the subtree headed by the item, and above it items
    of the tree other than the item itself. *)
Lemma locate_Some x t : forall s p,
  locate x t = Some (s, p) ->
  root s = x /\ s ∈ subtrees t /\ (x ∉ p) /\ forall a, a ∈ p -> a ∈ tree_items t.
Proof.
  induction t as [i ks IH] using tree_induction. intros s p. simpl.
  destruct (decide (i = x)) as [->|Hix].
  - intros [= <- <-]. split_and!; [done|apply list_elem_of_here| |].
    + by intros ?%elem_of_nil.
    + by intros ? ?%elem_of_nil.
  - destruct (first_some (locate x) ks) as [[s' p']|] eqn:Hfs; [|done].
    intros [= -> <-].
    apply first_some_Some in Hfs as (l1 & k & l2 & -> & _ & Hk).
    rewrite Forall_forall in IH.
    assert (k ∈ l1 ++ k :: l2) as Hin by (apply elem_of_app; right; apply list_elem_of_here).
    destruct (IH k Hin s p' Hk) as (Hroot & Hsub & Hnot & Hitems).
    split_and!; [done| | |].
    + apply elem_of_cons. right. apply elem_of_flat_map. eauto.
    + intros [?|Hxi%list_elem_of_singleton]%elem_of_app; [done|]. by apply Hix.
    + intros a [Ha|Ha%list_elem_of_singleton]%elem_of_app.
      * apply elem_of_cons. right. apply elem_of_flat_map. eauto.
      * subst a. apply list_elem_of_here.
Qed.

(** In a tree without repeated items a subtree is found by its root. *)
Lemma locate_subtree t : forall s,
  NoDup (tree_items t) -> s ∈ subtrees t -> exists p, locate (root s) t = Some (s, p).
Proof.
  induction t as [i ks IH] using tree_induction. intros s Hnd Hs.
  apply subtrees_node in Hs as [->|(k & Hk & Hs)].
  - exists []. simpl. by rewrite decide_True.
  - simpl in Hnd. apply NoDup_cons in Hnd as [Hi Hnd].
    pose proof (subtrees_items k s (root s) Hs (root_in_items s)) as Hrk.
    simpl. rewrite decide_False.
    2:{ intros ->. apply Hi, elem_of_flat_map. eauto. }
    apply list_elem_of_split in Hk as (l1 & l2 & ->).
    destruct (NoDup_flat_map_split tree_items l1 k l2 Hnd) as [Hndk Hdis].
    rewrite first_some_skip.
    2:{ rewrite Forall_forall. intros k' Hk'. apply locate_None. intros Hy.
        apply (Hdis k' (root s)); [|done|done]. apply elem_of_app. by left. }
    rewrite Forall_forall in IH.
    destruct (IH k) with (s := s) as [p Hp]; [|done|done|].
    { apply elem_of_app. right. apply list_elem_of_here. }
    simpl. rewrite Hp. eauto.
Qed.

Lemma descend_all t : tree_items t = root t :: descend t None.
Proof.
  induction t as [i ks IH] using tree_induction. simpl. f_equal.
  induction IH as [|k ks Hk _ IHks]; simpl; [done|].
  rewrite IHks. by rewrite Hk at 1.
Qed.

Lemma descend_one t : descend t (Some 1) = root <$> kids t.
Proof.
  destruct t as [i ks]. simpl.
  induction ks as [|k ks IH]; simpl; [done|].
  destruct k as [j js]. simpl. by rewrite IH.
Qed.

End TreeFacts.

Module StructureFacts.

(** What the composer finds for an item lies in one tree of its forest. *)
Lemma find_Some c x s p :
  Composer.find c x = Some (s, p) ->
  exists f1 T f2,
    Composer.forest c = f1 ++ T :: f2 /\
    Forall (fun T' => locate x T' = None) f1 /\
    locate x T = Some (s, p).
Proof. apply TreeFacts.first_some_Some. Qed.

Lemma find_subtree c T s :
  NoDup (Composer.items c) -> T ∈ Composer.forest c -> s ∈ subtrees T ->
  exists p, Composer.find c (root s) = Some (s, p).
Proof.
  intros Hnd HT Hs. unfold Composer.find, Composer.items, forest_items in *.
  apply list_elem_of_split in HT as (f1 & f2 & HF). rewrite HF in *.
  destruct (TreeFacts.NoDup_flat_map_split tree_items f1 T f2 Hnd) as [HndT Hdis].
  pose proof (TreeFacts.subtrees_items T s (root s) Hs (TreeFacts.root_in_items s)) as Hr.
  rewrite TreeFacts.first_some_skip.
  2:{ rewrite Forall_forall. intros T' HT'. apply TreeFacts.locate_None. intros Hy.
      apply (Hdis T' (root s)); [|done|done]. apply elem_of_app. by left. }
  destruct (TreeFacts.locate_subtree T s HndT Hs) as [p Hp].
  simpl. rewrite Hp. eauto.
Qed.

Lemma children_subtree c T s :
  NoDup (Composer.items c) -> T ∈ Composer.forest c -> s ∈ subtrees T ->
  Composer.getItemChildren c (root s) = root <$> kids s.
Proof.
  intros Hnd HT Hs. destruct (find_subtree c T s Hnd HT Hs) as [p Hp].
  unfold Composer.getItemChildren. by rewrite Hp.
Qed.

Lemma ancestors_not_self c x : x ∉ Composer.getItemAncestors c x.
Proof.
  unfold Composer.getItemAncestors.
  destruct (Composer.find c x) as [[s p]|] eqn:Hf; [|by intros ?%elem_of_nil].
  apply find_Some in Hf as (f1 & T & f2 & _ & _ & HT).
  by apply TreeFacts.locate_Some in HT as (_ & _ & Hnot & _).
Qed.

(** Descendants down to one level are the children. *)
Lemma descendants_depth_one c x :
  Composer.getItemDescendants c x (Some 1) = Composer.getItemChildren c x.
Proof.
  unfold Composer.getItemDescendants, Composer.getItemChildren.
  destruct (Composer.find c x) as [[s p]|]; [|done]. apply TreeFacts.descend_one.
Qed.

End StructureFacts.

(** ** Propagation of the checked state *)

Module PropagationFacts.
Import TreeManager.

Lemma forallb_is (s : CheckedState) l :
  forallb (fun s' => bool_decide (s' = s)) l = true <-> Forall (fun s' => s' = s) l.
Proof.
  induction l as [|a l IH]; simpl.
  - split; [constructor|done].
  - rewrite andb_true_iff, IH, bool_decide_eq_true, Forall_cons. tauto.
Qed.

Lemma aggregate_CHECKED l : aggregate l = CHECKED <-> Forall (fun s => s = CHECKED) l.
Proof.
  unfold aggregate. rewrite <- forallb_is.
  destruct (forallb (fun s => bool_decide (s = CHECKED)) l); [done|].
  destruct (forallb (fun s => bool_decide (s = UNCHECKED)) l); split; done.
Qed.

Lemma aggregate_UNCHECKED l :
  l <> [] -> aggregate l = UNCHECKED <-> Forall (fun s => s = UNCHECKED) l.
Proof.
  intros Hl. unfold aggregate. rewrite <- (forallb_is UNCHECKED).
  destruct (forallb (fun s => bool_decide (s = CHECKED)) l) eqn:Hc.
  - apply forallb_is in Hc. split; [done|]. intros Hu%forallb_is.
    destruct l as [|a l]; [done|].
    apply Forall_cons in Hc as [-> _]. by apply Forall_cons in Hu as [? _].
  - destruct (forallb (fun s => bool_decide (s = UNCHECKED)) l); split; done.
Qed.

Lemma aggregate_uniform s l :
  s <> INDETERMINATE -> l <> [] -> Forall (fun s' => s' = s) l -> aggregate l = s.
Proof.
  intros Hs Hl Hall. destruct s; [by apply aggregate_CHECKED|by apply aggregate_UNCHECKED|done].
Qed.

Lemma fmap_ext_in {A B} (f g : A -> B) (l : list A) :
  (forall a, a ∈ l -> f a = g a) -> f <$> l = g <$> l.
Proof.
  induction l as [|a l IH]; intros H; simpl; [done|]. f_equal.
  - apply H, list_elem_of_here.
  - apply IH. intros a' Ha'. apply H. by apply list_elem_of_further.
Qed.

Lemma force_lookup s xs : forall st y,
  force s st xs !! y = if decide (y ∈ xs) then Some s else st !! y.
Proof.
  unfold force. induction xs as [|x xs IH]; intros st y; cbn [foldl].
  - by rewrite decide_False by (by intros ?%elem_of_nil).
  - rewrite IH. destruct (decide (y ∈ xs)) as [Hin|Hin].
    + rewrite decide_True; [done|]. by apply list_elem_of_further.
    + destruct (decide (y = x)) as [->|Hne].
      * rewrite lookup_insert_eq. rewrite decide_True; [done|]. apply list_elem_of_here.
      * rewrite lookup_insert_ne by done. rewrite decide_False; [done|].
        by intros [?|?]%elem_of_cons.
Qed.

Lemma recompute_frame c l : forall st y,
  y ∉ l -> foldl (recompute c) st l !! y = st !! y.
Proof.
  induction l as [|a l IH]; intros st y Hy; simpl; [done|].
  rewrite IH by (intros ?; apply Hy; by apply list_elem_of_further).
  unfold recompute. rewrite lookup_insert_ne; [done|].
  intros ->. apply Hy, list_elem_of_here.
Qed.

(** After a propagation the targeted item holds the state it was given. *)
Lemma propagate_target c rel x s st : state_in (propagate c rel x s st) x = s.
Proof.
  unfold propagate, state_in. destruct rel.
  - rewrite recompute_frame by apply StructureFacts.ancestors_not_self.
    rewrite force_lookup. case_decide; [done|]. by rewrite lookup_insert_eq.
  - by rewrite lookup_insert_eq.
Qed.

Lemma rule_at_parent st i ks :
  ks <> [] ->
  rule_at st (Node i ks) <-> state_in st i = aggregate (state_in st <$> (root <$> ks)).
Proof. intros Hks. unfold rule_at. simpl. by destruct ks. Qed.

Lemma rule_at_leaf st i : rule_at st (Node i []) <-> state_in st i <> INDETERMINATE.
Proof. done. Qed.

Lemma ruled_node st i ks :
  ruled st (Node i ks) <-> rule_at st (Node i ks) /\ forall k, k ∈ ks -> ruled st k.
Proof.
  unfold ruled. split.
  - intros H. split.
    + apply H, TreeFacts.self_in_subtrees.
    + intros k Hk t' Ht'. apply H, TreeFacts.subtrees_node. eauto.
  - intros [Hi Hks] t' [->|(k & Hk & Ht')]%TreeFacts.subtrees_node; [done|].
    by apply (Hks k).
Qed.

Lemma rule_at_ext st st' t :
  (forall y, y ∈ tree_items t -> st' !! y = st !! y) -> rule_at st t -> rule_at st' t.
Proof.
  intros Hext. destruct t as [i ks].
  assert (state_in st' i = state_in st i) as Hi.
  { unfold state_in. rewrite Hext; [done|]. apply (TreeFacts.root_in_items (Node i ks)). }
  destruct ks as [|k ks]; [unfold rule_at; simpl; by rewrite Hi|].
  rewrite !rule_at_parent by done. rewrite Hi. intros ->. f_equal.
  apply fmap_ext_in. intros r (k' & -> & Hk')%list_elem_of_fmap.
  unfold state_in. rewrite Hext; [done|].
  apply TreeFacts.tree_items_node. right. exists k'. split; [done|].
  apply TreeFacts.root_in_items.
Qed.

(** The rule only reads the states of the tree's own items. *)
Lemma ruled_ext st st' t :
  (forall y, y ∈ tree_items t -> st' !! y = st !! y) -> ruled st t -> ruled st' t.
Proof.
  intros Hext H t' Ht'. apply (rule_at_ext st); [|by apply H].
  intros y Hy. apply Hext. by apply (TreeFacts.subtrees_items t t').
Qed.

(** A tree all of whose items hold the same decided state follows the rule. *)
Lemma ruled_uniform st s t :
  s <> INDETERMINATE ->
  (forall y, y ∈ tree_items t -> state_in st y = s) -> ruled st t.
Proof.
  intros Hs Hall t' Ht'. destruct t' as [i ks].
  assert (forall y, y ∈ tree_items (Node i ks) -> state_in st y = s) as Hall'.
  { intros y Hy. apply Hall. by apply (TreeFacts.subtrees_items t (Node i ks)). }
  assert (state_in st i = s) as Hi by apply Hall', (TreeFacts.root_in_items (Node i ks)).
  destruct ks as [|k ks]; [apply rule_at_leaf; congruence|].
  apply rule_at_parent; [done|]. rewrite Hi. symmetry.
  apply aggregate_uniform; [done|done|].
  rewrite Forall_forall. intros s' (r & -> & (k' & -> & Hk')%list_elem_of_fmap)%list_elem_of_fmap.
  apply Hall', TreeFacts.tree_items_node. right. exists k'. split; [done|].
  apply TreeFacts.root_in_items.
Qed.

End PropagationFacts.

Module ConsistencyFacts.
Import TreeManager.

Section propagation.
Variable c : Composer.t.
Variable x : item.
Variable s : CheckedState.
Hypothesis decided : s <> INDETERMINATE.

(** Forcing the subtree of [x] and recomputing the path above it restores
    the rule in any tree that holds [x], and touches nothing outside it. *)
Lemma propagate_tree t : forall sx p st,
  (forall t', t' ∈ subtrees t ->
              Composer.getItemChildren c (root t') = root <$> kids t') ->
  NoDup (tree_items t) ->
  ruled st t ->
  locate x t = Some (sx, p) ->
  ruled (foldl (recompute c) (force s st (tree_items sx)) p) t /\
  forall y, y ∉ tree_items t ->
            foldl (recompute c) (force s st (tree_items sx)) p !! y = st !! y.
Proof.
  induction t as [i ks IH] using tree_induction.
  intros sx p st Hkids Hnd Hruled. simpl.
  destruct (decide (i = x)) as [->|Hix].
  - intros [= <- <-]. cbn [foldl]. split.
    + apply (PropagationFacts.ruled_uniform _ s); [done|].
      intros y Hy. unfold state_in. rewrite PropagationFacts.force_lookup.
      by case_decide.
    + intros y Hy. rewrite PropagationFacts.force_lookup. by case_decide.
  - destruct (first_some (locate x) ks) as [[s' p']|] eqn:Hfs; [|done].
    intros [= <- <-].
    apply TreeFacts.first_some_Some in Hfs as (l1 & k & l2 & -> & _ & Hk).
    assert (k ∈ l1 ++ k :: l2) as Hin
      by (apply elem_of_app; right; apply list_elem_of_here).
    simpl in Hnd. apply NoDup_cons in Hnd as [Hi Hnd].
    destruct (TreeFacts.NoDup_flat_map_split tree_items l1 k l2 Hnd) as [Hndk Hdis].
    apply PropagationFacts.ruled_node in Hruled as [Hrule_i Hruled].
    rewrite Forall_forall in IH.
    destruct (IH k Hin s' p' st) as [Hk_ruled Hk_frame]; [|done|by apply Hruled|done|].
    { intros t' Ht'. apply Hkids, TreeFacts.subtrees_node. eauto. }
    rewrite foldl_app. simpl.
    set (st1 := foldl (recompute c) (force s st (tree_items s')) p') in *.
    assert (forall k', k' ∈ l1 ++ k :: l2 -> i ∉ tree_items k') as Hi_out.
    { intros k' Hk' Hik. apply Hi, TreeFacts.elem_of_flat_map. eauto. }
    assert (forall k', k' ∈ l1 ++ k :: l2 -> ruled st1 k') as Hst1.
    { intros k' [->|Hk']%TreeFacts.elem_of_middle; [done|].
      apply (PropagationFacts.ruled_ext st).
      - intros y Hy. apply Hk_frame. intros Hyk. by apply (Hdis k' y).
      - apply Hruled, TreeFacts.elem_of_middle. by right. }
    pose proof (Hkids (Node i (l1 ++ k :: l2)) (TreeFacts.self_in_subtrees _)) as Hch.
    simpl in Hch. unfold recompute. rewrite Hch. split.
    + apply PropagationFacts.ruled_node. split.
      * apply PropagationFacts.rule_at_parent; [by destruct l1|].
        unfold state_in at 1. rewrite lookup_insert_eq. simpl. f_equal.
        apply PropagationFacts.fmap_ext_in.
        intros r (k' & -> & Hk')%list_elem_of_fmap.
        unfold state_in. rewrite lookup_insert_ne; [done|].
        intros ->. apply (Hi_out k' Hk'), TreeFacts.root_in_items.
      * intros k' Hk'. apply (PropagationFacts.ruled_ext st1); [|by apply Hst1].
        intros y Hy. rewrite lookup_insert_ne; [done|].
        intros ->. by apply (Hi_out k' Hk').
    + intros y Hy. rewrite lookup_insert_ne.
      2:{ intros <-. apply Hy, (TreeFacts.root_in_items (Node i (l1 ++ k :: l2))). }
      apply Hk_frame. intros Hyk. apply Hy, TreeFacts.tree_items_node. eauto.
Qed.

(** Propagation keeps a forest without repeated items consistent. *)
Lemma propagate_consistent st :
  NoDup (Composer.items c) ->
  consistent st (Composer.forest c) ->
  consistent (propagate c true x s st) (Composer.forest c).
Proof.
  intros Hnd Hcons. unfold propagate, Composer.getItemAncestors,
    Composer.getItemDescendants.
  destruct (Composer.find c x) as [[sx p]|] eqn:Hfind.
  - pose proof (StructureFacts.find_Some c x sx p Hfind) as (f1 & T & f2 & HF & _ & HT).
    assert (T ∈ Composer.forest c) as HTin
      by (rewrite HF; apply elem_of_app; right; apply list_elem_of_here).
    assert (force s (<[x:=s]> st) (descend sx None) = force s st (tree_items sx)) as ->.
    { rewrite (TreeFacts.descend_all sx).
      by apply TreeFacts.locate_Some in HT as (-> & _). }
    unfold Composer.items, forest_items in Hnd. rewrite HF in Hnd.
    destruct (TreeFacts.NoDup_flat_map_split tree_items f1 T f2 Hnd) as [HndT Hdis].
    destruct (propagate_tree T sx p st) as [HT_ruled HT_frame]; [|done|by apply Hcons|done|].
    { intros t' Ht'. apply (StructureFacts.children_subtree c T); [|done|done].
      unfold Composer.items, forest_items. by rewrite HF. }
    intros T' HT'. pose proof HT' as HT''. rewrite HF in HT''.
    apply TreeFacts.elem_of_middle in HT'' as [->|HT'']; [done|].
    apply (PropagationFacts.ruled_ext st); [|by apply Hcons].
    intros y Hy. apply HT_frame. intros HyT. by apply (Hdis T' y).
  - simpl. intros T HT. apply (PropagationFacts.ruled_ext st); [|by apply Hcons].
    intros y Hy. rewrite lookup_insert_ne; [done|]. intros <-.
    destruct (TreeFacts.first_some_found (locate x) (Composer.forest c) T HT
                (TreeFacts.locate_found x T Hy)) as [r Hr].
    unfold Composer.find in Hfind. congruence.
Qed.

End propagation.

End ConsistencyFacts.

Module ReachableFacts.
Import TreeNodeAPI TreeManagerAPI.

Lemma items_forest c c' :
  Composer.forest c' = Composer.forest c -> Composer.items c' = Composer.items c.
Proof. unfold Composer.items. by intros ->. Qed.

Lemma sound_propagate c rel m x s :
  s <> INDETERMINATE ->
  sound c rel m ->
  rel = true -> NoDup (Composer.items c) ->
  TreeManager.consistent
    (TreeManager.propagate (TreeManager.composer m) (TreeManager.relationship m) x s
       (TreeManager.checked m))
    (Composer.forest c).
Proof.
  intros Hs (Hforest & Hrel & Hcons) -> Hnd. rewrite Hrel, <- Hforest.
  apply ConsistencyFacts.propagate_consistent; [done| |].
  - by rewrite (items_forest c).
  - rewrite Hforest. by apply Hcons.
Qed.

Lemma sound_checkItem c rel m x : sound c rel m -> sound c rel (TreeManager.checkItem x m).
Proof.
  intros Hm. pose proof Hm as (Hforest & Hrel & Hcons).
  split_and!.
  - by rewrite TreeManagerFacts.checkItem_forest.
  - unfold TreeManager.checkItem. by destruct (Composer.isItem _ x).
  - intros Hr Hnd. unfold TreeManager.checkItem.
    destruct (Composer.isItem _ x); [|by apply Hcons]. simpl.
    by apply (sound_propagate c rel m x CHECKED).
Qed.

Lemma sound_uncheckItem c rel m x :
  sound c rel m -> sound c rel (TreeManager.uncheckItem x m).
Proof.
  intros Hm. pose proof Hm as (Hforest & Hrel & Hcons).
  split_and!.
  - by rewrite TreeManagerFacts.uncheckItem_forest.
  - unfold TreeManager.uncheckItem. by destruct (Composer.isItem _ x).
  - intros Hr Hnd. unfold TreeManager.uncheckItem.
    destruct (Composer.isItem _ x); [|by apply Hcons]. simpl.
    by apply (sound_propagate c rel m x UNCHECKED).
Qed.

Lemma sound_handle c rel X (call : Call X) m :
  sound c rel m -> sound c rel (snd (handle X call m)).
Proof.
  intros Hm. destruct call; simpl; try done.
  - unfold TreeManager.expandItem. by destruct (Composer.isItem _ x).
  - unfold TreeManager.collapseItem. by destruct (Composer.isItem _ x).
  - by apply sound_checkItem.
  - by apply sound_uncheckItem.
  - unfold TreeManager.getTreeNode. by destruct (TreeManager.nodes m !! x).
Qed.

Lemma sound_seeds c rel seeds : forall m,
  sound c rel m ->
  sound c rel (foldl (fun m x => TreeManager.checkItem x m) m seeds).
Proof.
  induction seeds as [|x seeds IH]; intros m Hm; simpl; [done|].
  apply IH. by apply sound_checkItem.
Qed.

Lemma sound_create c rel : sound c rel (TreeManager.create c rel).
Proof.
  unfold TreeManager.create. apply sound_seeds.
  split_and!; [done|done|]. intros _ _ T HT.
  apply (PropagationFacts.ruled_uniform _ UNCHECKED); [done|].
  intros y _. unfold TreeManager.state_in. simpl. by rewrite lookup_empty.
Qed.

Lemma reachable_sound c rel m : reachable c rel m -> sound c rel m.
Proof.
  induction 1 as [|X call m _ IH]; [apply sound_create|by apply sound_handle].
Qed.

End ReachableFacts.

Module LeafFacts.
Import TreeManager.

(** Under the rule the state at the head of a tree says what its leaves
    hold. *)
Lemma ruled_leaves st t :
  ruled st t ->
  (state_in st (root t) = CHECKED <->
   Forall (fun l => state_in st l = CHECKED) (leaves t)) /\
  (state_in st (root t) = UNCHECKED <->
   Forall (fun l => state_in st l = UNCHECKED) (leaves t)).
Proof.
  induction t as [i ks IH] using tree_induction. intros Hruled.
  apply PropagationFacts.ruled_node in Hruled as [Hi Hks].
  destruct ks as [|k ks].
  - simpl. rewrite !Forall_singleton. tauto.
  - apply PropagationFacts.rule_at_parent in Hi; [|done].
    change (root (Node i (k :: ks))) with i. rewrite Hi.
    rewrite PropagationFacts.aggregate_CHECKED,
      PropagationFacts.aggregate_UNCHECKED by done.
    change (leaves (Node i (k :: ks))) with (flat_map leaves (k :: ks)).
    rewrite Forall_forall in IH.
    rewrite !Forall_forall. split; split.
    + intros Hall l (k' & Hk' & Hl)%TreeFacts.elem_of_flat_map.
      destruct (IH k' Hk' (Hks k' Hk')) as [Hc _].
      rewrite Forall_forall in Hc. apply Hc; [|done].
      apply Hall. by apply list_elem_of_fmap_2, list_elem_of_fmap_2.
    + intros Hall s (r & -> & (k' & -> & Hk')%list_elem_of_fmap)%list_elem_of_fmap.
      apply (IH k' Hk' (Hks k' Hk')). rewrite Forall_forall. intros l Hl.
      apply Hall, TreeFacts.elem_of_flat_map. eauto.
    + intros Hall l (k' & Hk' & Hl)%TreeFacts.elem_of_flat_map.
      destruct (IH k' Hk' (Hks k' Hk')) as [_ Hu].
      rewrite Forall_forall in Hu. apply Hu; [|done].
      apply Hall. by apply list_elem_of_fmap_2, list_elem_of_fmap_2.
    + intros Hall s (r & -> & (k' & -> & Hk')%list_elem_of_fmap)%list_elem_of_fmap.
      apply (IH k' Hk' (Hks k' Hk')). rewrite Forall_forall. intros l Hl.
      apply Hall, TreeFacts.elem_of_flat_map. eauto.
Qed.

(** The leaves of a subtree are its items without children. *)
Lemma leaves_childless c T :
  NoDup (Composer.items c) -> T ∈ Composer.forest c ->
  forall s, s ∈ subtrees T ->
  forall y, y ∈ leaves s <-> y ∈ tree_items s /\ Composer.getItemChildren c y = [].
Proof.
  intros Hnd HT s. induction s as [i ks IH] using tree_induction. intros Hs y.
  pose proof (StructureFacts.children_subtree c T _ Hnd HT Hs) as Hch. simpl in Hch.
  destruct ks as [|k ks].
  - simpl. rewrite list_elem_of_singleton. split; [intros ->; by split|by intros [-> _]].
  - change (leaves (Node i (k :: ks))) with (flat_map leaves (k :: ks)).
    rewrite TreeFacts.elem_of_flat_map, TreeFacts.tree_items_node.
    rewrite Forall_forall in IH. split.
    + intros (k' & Hk' & Hy).
      apply IH in Hy as [Hy Hnone]; [|done|].
      * split; [eauto|done].
      * apply (TreeFacts.subtrees_trans T (Node i (k :: ks))); [done|].
        apply TreeFacts.subtrees_node. right. exists k'. split; [done|].
        apply TreeFacts.self_in_subtrees.
    + intros [[->|(k' & Hk' & Hy)] Hnone]; [by rewrite Hch in Hnone|].
      exists k'. split; [done|]. apply IH; [done| |done].
      apply (TreeFacts.subtrees_trans T (Node i (k :: ks))); [done|].
      apply TreeFacts.subtrees_node. right. exists k'. split; [done|].
      apply TreeFacts.self_in_subtrees.
Qed.

(** The descendants of a parent that have no children are the leaves of the
    subtree it heads. *)
Lemma childless_descendants c T s y :
  NoDup (Composer.items c) -> T ∈ Composer.forest c -> s ∈ subtrees T ->
  kids s <> [] ->
  y ∈ filter (fun d => Composer.getItemChildren c d = []) (descend s None)
  <-> y ∈ leaves s.
Proof.
  intros Hnd HT Hs Hkids.
  rewrite list_elem_of_filter, (leaves_childless c T Hnd HT s Hs).
  rewrite (TreeFacts.descend_all s), elem_of_cons.
  split; [tauto|]. intros [[->|Hy] Hnone]; [|done].
  rewrite (StructureFacts.children_subtree c T s Hnd HT Hs) in Hnone.
  destruct (kids s); [done|discriminate].
Qed.

End LeafFacts.

Module RuleFacts.
Import TreeManager.

(** In a consistent forest without repeated items, an item with children
    holds the aggregate of its children, and its state says what the
    childless items below it hold. *)
Lemma parent_rule c st x :
  NoDup (Composer.items c) ->
  consistent st (Composer.forest c) ->
  Composer.getItemChildren c x <> [] ->
  state_in st x = aggregate (state_in st <$> Composer.getItemChildren c x) /\
  (state_in st x = CHECKED <->
   Forall (fun l => state_in st l = CHECKED)
     (filter (fun d => Composer.getItemChildren c d = [])
             (Composer.getItemDescendants c x None))) /\
  (state_in st x = UNCHECKED <->
   Forall (fun l => state_in st l = UNCHECKED)
     (filter (fun d => Composer.getItemChildren c d = [])
             (Composer.getItemDescendants c x None))).
Proof.
  intros Hnd Hcons Hparent.
  unfold Composer.getItemChildren, Composer.getItemDescendants in *.
  destruct (Composer.find c x) as [[s p]|] eqn:Hfind; [|done].
  apply StructureFacts.find_Some in Hfind as (f1 & T & f2 & HF & _ & HT).
  assert (T ∈ Composer.forest c) as HTin
    by (rewrite HF; apply elem_of_app; right; apply list_elem_of_here).
  apply TreeFacts.locate_Some in HT as (Hroot & Hs & _).
  assert (kids s <> []) as Hkids by (by destruct (kids s)).
  assert (ruled st s) as Hruled.
  { intros t' Ht'. apply (Hcons T HTin). by apply (TreeFacts.subtrees_trans T s). }
  destruct (LeafFacts.ruled_leaves st s Hruled) as [Hc Hu]. rewrite Hroot in Hc, Hu.
  assert (forall P : item -> Prop,
             Forall P (filter (fun d => Composer.getItemChildren c d = []) (descend s None))
             <-> Forall P (leaves s)) as Hfilter.
  { intros P. rewrite !Forall_forall. split; intros Hall y Hy; apply Hall;
      by apply (LeafFacts.childless_descendants c T s y Hnd HTin Hs Hkids). }
  split_and!.
  - pose proof (Hruled s (TreeFacts.self_in_subtrees s)) as Hrule.
    destruct s as [i ks]. simpl in *. subst i.
    by apply PropagationFacts.rule_at_parent in Hrule.
  - by rewrite Hfilter.
  - by rewrite Hfilter.
Qed.

Lemma not_parent_childless m d :
  isItemParent m d = false <-> Composer.getItemChildren (composer m) d = [].
Proof.
  unfold isItemParent, getItemChildren.
  by rewrite negb_false_iff, bool_decide_eq_true.
Qed.

Lemma Forall_filter_iff {A} (P Q Q' : A -> Prop)
    `{!forall a, Decision (Q a)} `{!forall a, Decision (Q' a)} (l : list A) :
  (forall a, Q a <-> Q' a) -> Forall P (filter Q l) <-> Forall P (filter Q' l).
Proof.
  intros HQ. rewrite !Forall_forall.
  split; intros Hall a Ha; apply Hall; apply list_elem_of_filter in Ha as [Ha Hin];
    apply list_elem_of_filter; split; try done; by apply HQ.
Qed.

Lemma state_cases (s : CheckedState) (A B : Prop) :
  (s = CHECKED <-> A) -> (s = UNCHECKED <-> B) ->
  (s = INDETERMINATE <-> ~ A /\ ~ B).
Proof.
  intros HA HB. rewrite <- HA, <- HB. destruct s; split; try done.
  - by intros [? _].
  - by intros [_ ?].
Qed.

End RuleFacts.

(** C1: in relationship mode, for every forest the composer accepts (no
    item occurs twice), every manager that can come about for it and every
    item with children,
    the stored state of the item is CHECKED iff all of its children are
    CHECKED, UNCHECKED iff all of them are UNCHECKED, and INDETERMINATE
    otherwise; and the same holds with the childless items below it (its
    descendant leaves) in place of its children. *)
Theorem C1_parent_state_aggregates_children :
  forall (forest : list tree) (fields : gmap item (gmap string JS.value))
         (c : Composer.t) (m : TreeManager.t) (x : item),
    Composer.create forest fields = Some c ->
    TreeManagerAPI.reachable c true m ->
    TreeManager.isItemParent m x = true ->
    let state := TreeManager.getItemCheckedState m in
    let all (s : CheckedState) (l : list item) := Forall (fun y => state y = s) l in
    let children := TreeManager.getItemChildren m x in
    let leaves :=
      filter (fun d => TreeManager.isItemParent m d = false)
             (TreeManager.getItemDescendants m x None) in
    (state x = CHECKED <-> all CHECKED children) /\
    (state x = UNCHECKED <-> all UNCHECKED children) /\
    (state x = INDETERMINATE <-> ~ all CHECKED children /\ ~ all UNCHECKED children) /\
    (state x = CHECKED <-> all CHECKED leaves) /\
    (state x = UNCHECKED <-> all UNCHECKED leaves) /\
    (state x = INDETERMINATE <-> ~ all CHECKED leaves /\ ~ all UNCHECKED leaves).
Proof.
  intros forest fields c m x Hc Hreach Hparent state all children leaves.
  assert (NoDup (Composer.items c)) as Hnd.
  { unfold Composer.create in Hc. case_decide as Hnd; [|done].
    by injection Hc as <-. }
  clear Hc.
  destruct (ReachableFacts.reachable_sound c true m Hreach) as (Hforest & _ & Hcons).
  specialize (Hcons eq_refl Hnd).
  assert (children <> []) as Hchildren.
  { subst children. unfold TreeManager.isItemParent in Hparent.
    apply negb_true_iff, bool_decide_eq_false in Hparent. done. }
  destruct (RuleFacts.parent_rule (TreeManager.composer m) (TreeManager.checked m) x)
    as (Hagg & Hlc & Hlu); [by rewrite (ReachableFacts.items_forest c)|by rewrite Hforest|done|].
  assert (state x = CHECKED <-> all CHECKED children) as Hc.
  { subst state all children. unfold TreeManager.getItemCheckedState. rewrite Hagg.
    rewrite PropagationFacts.aggregate_CHECKED. by rewrite Forall_fmap. }
  assert (state x = UNCHECKED <-> all UNCHECKED children) as Hu.
  { subst state all children. unfold TreeManager.getItemCheckedState. rewrite Hagg.
    rewrite PropagationFacts.aggregate_UNCHECKED.
    - by rewrite Forall_fmap.
    - intros Hnil. by apply fmap_nil_inv in Hnil. }
  assert (state x = CHECKED <-> all CHECKED leaves) as Hlc'.
  { subst state all leaves. unfold TreeManager.getItemCheckedState. rewrite Hlc.
    apply RuleFacts.Forall_filter_iff. intros d. symmetry.
    apply RuleFacts.not_parent_childless. }
  assert (state x = UNCHECKED <-> all UNCHECKED leaves) as Hlu'.
  { subst state all leaves. unfold TreeManager.getItemCheckedState. rewrite Hlu.
    apply RuleFacts.Forall_filter_iff. intros d. symmetry.
    apply RuleFacts.not_parent_childless. }
  split_and!; try done; by apply RuleFacts.state_cases.
Qed.

Lemma C1_parent_state_witness :
  let m := TreeManager.checkItem 1 (TreeManager.create Samples.abc true) in
  TreeManager.getItemChildren m 0 = [1; 2] /\
  TreeManager.getItemCheckedState m 1 = CHECKED /\
  TreeManager.getItemCheckedState m 2 = UNCHECKED /\
  (TreeManager.getItemCheckedState m 0 = INDETERMINATE <->
   ~ Forall (fun y => TreeManager.getItemCheckedState m y = CHECKED) [1; 2] /\
   ~ Forall (fun y => TreeManager.getItemCheckedState m y = UNCHECKED) [1; 2]).
Proof.
  split_and!; [reflexivity|reflexivity|reflexivity|].
  refine (proj1 (proj2 (proj2
    (C1_parent_state_aggregates_children
       (Composer.forest Samples.abc) (Composer.fields Samples.abc) Samples.abc
       (TreeManager.checkItem 1 (TreeManager.create Samples.abc true)) 0 _ _ _)))).
  - reflexivity.
  - exact (TreeManagerAPI.reachable_call Samples.abc true unit (TreeNodeAPI.CheckItem 1) _
             (TreeManagerAPI.reachable_create Samples.abc true)).
  - reflexivity.
Defined.

(** C2: an item whose [disabled] (or [readonly]) field is true is not
    checkable, so its handle's [isSelectable()] answers false, and yet
    [checkItem] on it (also as [selected = true] through the handle) leaves
    the item CHECKED whenever the item is one of the tree; in general
    [isItemCheckable] is false exactly when [disabled] or [readonly] is set,
    so an item that is neither is checkable and selectable. *)
Theorem C2_checkability_is_advisory :
  forall (m : TreeManager.t) (this : TreeNode),
    let x := node_item this in
    let field key := Composer.getItemPropertyValue (TreeManager.composer m) x key in
    let selectable := fst (TreeNodeAPI.run TreeManagerAPI.handle (TreeNode.isSelectable this) m) in
    (field "disabled" = JS.bool true \/ field "readonly" = JS.bool true ->
     TreeManager.isItemCheckable m x = false /\
     selectable = false /\
     (Composer.isItem (TreeManager.composer m) x = true ->
      TreeManager.getItemCheckedState (TreeManager.checkItem x m) x = CHECKED /\
      fst (TreeNodeAPI.run TreeManagerAPI.handle
             (TreeNodeAPI.bind (TreeNode.set_selected this true)
                (fun _ => TreeNode.getCheckedState this)) m) = CHECKED)) /\
    (TreeManager.isItemCheckable m x = false <->
     JS.to_boolean (field "disabled") = true \/ JS.to_boolean (field "readonly") = true) /\
    (JS.to_boolean (field "disabled") = false ->
     JS.to_boolean (field "readonly") = false ->
     TreeManager.isItemCheckable m x = true /\ selectable = true).
Proof.
  intros m this x field selectable.
  assert (TreeManager.isItemCheckable m x = false <->
          JS.to_boolean (field "disabled") = true \/
          JS.to_boolean (field "readonly") = true) as Hiff.
  { unfold TreeManager.isItemCheckable. fold x. fold (field "disabled") (field "readonly").
    by rewrite negb_false_iff, orb_true_iff. }
  split_and!.
  - intros Hset.
    assert (TreeManager.isItemCheckable m x = false) as Hno.
    { apply Hiff. destruct Hset as [-> | ->]; auto. }
    split_and!; [done|done|]. intros Hitem.
    assert (TreeManager.getItemCheckedState (TreeManager.checkItem x m) x = CHECKED) as Hchecked.
    { unfold TreeManager.checkItem. rewrite Hitem.
      unfold TreeManager.getItemCheckedState. simpl.
      apply PropagationFacts.propagate_target. }
    done.
  - done.
  - intros Hd Hr. subst selectable. simpl. unfold TreeManager.isItemCheckable.
    fold x. fold (field "disabled") (field "readonly"). by rewrite Hd, Hr.
Qed.

(** ** The scenarios of the specification and of the test data *)

(** Tree A with children B and C, A unchecked: checking B leaves A
    indeterminate, checking C as well leaves A checked. *)
Example scenario_check_B_then_C :
  let m0 := TreeManager.create Samples.abc true in
  let m1 := TreeManager.checkItem 1 m0 in
  let m2 := TreeManager.checkItem 2 m1 in
  TreeManager.getItemCheckedState m0 0 = UNCHECKED /\
  TreeManager.getItemCheckedState m1 0 = INDETERMINATE /\
  TreeManager.getItemCheckedState m2 0 = CHECKED.
Proof. by vm_compute. Qed.

(** [deepNestedData] as seeded: the two groups of selected leaves and their
    parent Item 1.3 are checked, Item 1 above them is indeterminate; unchecking
    Item 1.3.1 leaves Item 1.3 indeterminate, checking Item 1 checks all. *)
Example scenario_deep_nested :
  let m := TreeManager.create Samples.deepNestedData true in
  let states m := TreeManager.getItemCheckedState m <$> [0; 1; 3; 4; 8] in
  states m = [INDETERMINATE; UNCHECKED; CHECKED; CHECKED; CHECKED] /\
  states (TreeManager.uncheckItem 4 m)
  = [INDETERMINATE; UNCHECKED; INDETERMINATE; UNCHECKED; CHECKED] /\
  states (TreeManager.checkItem 0 (TreeManager.uncheckItem 4 m))
  = [CHECKED; CHECKED; CHECKED; CHECKED; CHECKED] /\
  TreeManager.getItemAncestors m 9 = [8; 3; 0] /\
  TreeManager.getItemDescendants m 3 None = [4; 5; 6; 7; 8; 9; 10; 11] /\
  TreeManager.getItemDescendants m 3 (Some 1) = [4; 8].
Proof. by vm_compute. Qed.

(** Item 3 of [nestedData] is disabled: not checkable, and checked all the
    same by [checkItem]. *)
Example scenario_disabled_item :
  let m := TreeManager.create Samples.nestedData true in
  TreeManager.isItemCheckable m 4 = false /\
  TreeManager.getItemCheckedState (TreeManager.checkItem 4 m) 4 = CHECKED.
Proof. by vm_compute. Qed.

(** Item 1 of [nestedData], with only Item 1.2 selected, reads as not
    selected through its handle while its checked state is INDETERMINATE. *)
Example scenario_indeterminate_reads_unselected :
  let m := TreeManager.create Samples.nestedData true in
  let this := mkTreeNode 0 0 in
  fst (TreeNodeAPI.run TreeManagerAPI.handle (TreeNode.getCheckedState this) m)
    = INDETERMINATE /\
  fst (TreeNodeAPI.run TreeManagerAPI.handle (TreeNode.get_selected this) m) = false.
Proof. by vm_compute. Qed.

(** Item 4 of [nestedData] has none of the four boolean fields, Item 2 is
    readonly and Item 3 disabled: the getters of their handles say so. *)
Example scenario_absent_fields_read_false :
  let m := TreeManager.create Samples.nestedData true in
  let get (getter : TreeNode -> TreeNodeAPI.Prog bool) (x : item) :=
    fst (TreeNodeAPI.run TreeManagerAPI.handle (getter (mkTreeNode 0 x)) m) in
  Composer.getItemPropertyValue Samples.nestedData 5 "hidden" = JS.undefined /\
  (get TreeNode.get_readonly 5, get TreeNode.get_disabled 5,
   get TreeNode.get_highlighted 5, get TreeNode.get_hidden 5)
  = (false, false, false, false) /\
  get TreeNode.get_readonly 3 = true /\
  get TreeNode.get_disabled 4 = true.
Proof. by vm_compute. Qed.

(** The children of Item 1 as handles, asked for twice: the same handles. *)
Example scenario_children_handles :
  let m := TreeManager.create Samples.nestedData true in
  let this := mkTreeNode 0 0 in
  let '(first, m1) := TreeNodeAPI.run TreeManagerAPI.handle (TreeNode.getChildren this) m in
  let '(again, _) := TreeNodeAPI.run TreeManagerAPI.handle (TreeNode.getChildren this) m1 in
  first = again /\ node_item <$> first = [1; 2].
Proof. by vm_compute. Qed.

(** A load, a second load of the same address while the first is pending,
    the fetch failing, and a third load: one promise for the first two, the
    entry evicted by the failure, a new promise and a new fetch after it. *)
Example scenario_load_fail_load :
  let l1 := CDNLoader.load_body "icon.svg" CDNLoader.create in
  let l2 := CDNLoader.load_body "icon.svg" (snd l1) in
  let failed :=
    CDNLoader.step (CDNLoader.FetchThrows 0 (CDNLoader.ThrownError "Failed to fetch"))
      (snd l2) in
  let l3 := CDNLoader.load_body "icon.svg" failed in
  fst l1 = Some 0 /\ fst l2 = Some 0 /\ snd l2 = snd l1 /\
  CDNLoader.responseCache failed !! "icon.svg" = None /\
  CDNLoader.settled failed !! 0
    = Some {| CDNLoader.status := 0; CDNLoader.statusText := "Failed to fetch" |} /\
  fst l3 = Some 1 /\ CDNLoader.fetching (snd l3) !! 1 = Some "icon.svg".
Proof. by vm_compute. Qed.

(** ** Further properties of the loaders and the handle *)

Module TraceFacts.
Import TreeNodeAPI.

Lemma trace_bind {S A B} (h : handler S) (p : Prog A) (f : A -> Prog B) : forall s,
  trace h (bind p f) s
  = trace h p s ++ (let '(a, s') := run h p s in trace h (f a) s').
Proof.
  induction p as [a|X c k IH]; intros s; simpl; [done|].
  destruct (h X c s) as [x s1]. simpl. f_equal. apply IH.
Qed.

Lemma trace_getTreeNodes {S} (h : handler S) xs : forall s,
  trace h (mapM (fun x => call (GetTreeNode x)) xs) s
  = (fun x => existT TreeNode (GetTreeNode x)) <$> xs.
Proof.
  induction xs as [|x xs IH]; intros s; simpl; [done|].
  destruct (h TreeNode (GetTreeNode x) s) as [n s1]. f_equal.
  rewrite trace_bind, IH.
  destruct (run h (mapM (fun x => call (GetTreeNode x)) xs) s1) as [ns s2].
  simpl. apply app_nil_r.
Qed.

End TraceFacts.

(** X2: the promise of [CDNLoader.loadContent] is never rejected: when the
    fetch it awaits throws, the promise is fulfilled with a response of
    status 0 whose status text is the message of an [Error], the status text
    of a thrown [Response], and empty otherwise; when the fetch answers, the
    promise is fulfilled with that answer and the cache keeps its entry. *)
Theorem X2_loadContent_never_rejects :
  forall (this : CDNLoader.t) (p : CDNLoader.promise) (href : string),
    CDNLoader.fetching this !! p = Some href ->
    (forall e,
        CDNLoader.settled (CDNLoader.loadContent_caught p e this) !! p
        = Some {| CDNLoader.status := 0;
                  CDNLoader.statusText :=
                    match e with
                    | CDNLoader.ThrownError message => message
                    | CDNLoader.ThrownResponse r => CDNLoader.statusText r
                    | CDNLoader.ThrownOther => ""
                    end |} /\
        CDNLoader.fetching (CDNLoader.loadContent_caught p e this) !! p = None) /\
    (forall response,
        CDNLoader.settled (CDNLoader.loadContent_fetched p response this) !! p
        = Some response /\
        CDNLoader.fetching (CDNLoader.loadContent_fetched p response this) !! p = None /\
        CDNLoader.responseCache (CDNLoader.loadContent_fetched p response this)
        = CDNLoader.responseCache this).
Proof.
  intros this p href Hp. split.
  - intros e. unfold CDNLoader.loadContent_caught. rewrite Hp. simpl.
    rewrite lookup_insert_eq, lookup_delete_eq. by destruct e.
  - intros response. unfold CDNLoader.loadContent_fetched. rewrite Hp. simpl.
    by rewrite lookup_insert_eq, lookup_delete_eq.
Qed.

Lemma X2_loadContent_never_rejects_witness :
  let this := snd (CDNLoader.load_body "icon.svg" CDNLoader.create) in
  CDNLoader.settled
    (CDNLoader.loadContent_caught 0 (CDNLoader.ThrownError "Failed to fetch") this) !! 0
  = Some {| CDNLoader.status := 0; CDNLoader.statusText := "Failed to fetch" |}.
Proof.
  exact (proj1 (proj1
    (X2_loadContent_never_rejects
       (snd (CDNLoader.load_body "icon.svg" CDNLoader.create)) 0 "icon.svg" eq_refl)
    (CDNLoader.ThrownError "Failed to fetch"))).
Defined.

(** X3: a [CDNLoader] that can come about never has two fetches in flight
    for the same address: two pending [loadContent] calls for one address are
    the same call. *)
Theorem X3_one_fetch_per_address :
  forall (this : CDNLoader.t) (p q : CDNLoader.promise) (href : string),
    CDNLoader.reachable this ->
    CDNLoader.fetching this !! p = Some href ->
    CDNLoader.fetching this !! q = Some href ->
    p = q.
Proof.
  intros this p q href Hreach Hp Hq.
  pose proof (CDNLoaderFacts.reachable_invariant this Hreach) as Hinv.
  pose proof (CDNLoader.inv_fetching _ Hinv _ _ Hp) as Hcp.
  pose proof (CDNLoader.inv_fetching _ Hinv _ _ Hq) as Hcq.
  congruence.
Qed.

Lemma X3_one_fetch_per_address_witness :
  let this :=
    CDNLoader.run [CDNLoader.CallLoad "a.svg"; CDNLoader.CallLoad "b.svg";
                   CDNLoader.CallLoad "a.svg"] CDNLoader.create in
  CDNLoader.fetching this !! 0 = Some "a.svg" /\
  CDNLoader.fetching this !! 1 = Some "b.svg" /\
  (forall q, CDNLoader.fetching this !! q = Some "a.svg" -> 0 = q).
Proof.
  split_and!; [reflexivity|reflexivity|].
  intros q.
  apply (X3_one_fetch_per_address
           (CDNLoader.run [CDNLoader.CallLoad "a.svg"; CDNLoader.CallLoad "b.svg";
                           CDNLoader.CallLoad "a.svg"] CDNLoader.create)
           0 q "a.svg").
  - apply (CDNLoaderFacts.reachable_run _ _ CDNLoader.reachable_create).
  - reflexivity.
Defined.

(** X4: [IconLoader.getSrc] of the empty icon name resolves with the empty
    string at once, whatever the state of the prefix; of a non-empty name it
    follows the prefix promise, appending the name and [.svg]. *)
Theorem X4_getSrc_follows_prefix :
  forall (this : IconLoader.t) (iconName : string),
    IconLoader.getSrc "" this = Promise.Fulfilled "" /\
    (iconName <> "" ->
     IconLoader.getSrc iconName this =
       match IconLoader.getCdnPrefix this with
       | Promise.Pending => Promise.Pending
       | Promise.Fulfilled prefix => Promise.Fulfilled (prefix +:+ iconName +:+ ".svg")
       | Promise.Rejected reason => Promise.Rejected reason
       end).
Proof.
  intros this iconName. split; [reflexivity|].
  intros Hne. unfold IconLoader.getSrc.
  apply JSFacts.truthy_string_true in Hne. rewrite Hne.
  by destruct (IconLoader.getCdnPrefix this).
Qed.

(** X6: for any manager, the handle's [getChildren] asks the manager for the
    children of its item and then for the handle of each of them, in their
    order, and makes no other call; [getAncestors] and [getDescendants] do
    the same with the ancestors and the descendants. *)
Theorem X6_structural_members_wrap_in_order :
  forall (S : Type) (h : TreeNodeAPI.handler S) (this : TreeNode) (s : S)
         (depth : option nat),
    let x := node_item this in
    let wraps {X} (query : TreeNodeAPI.Call X) (xs : list item) :=
      existT X query
        :: ((fun y => existT TreeNode (TreeNodeAPI.GetTreeNode y)) <$> xs) in
    TreeNodeAPI.trace h (TreeNode.getChildren this) s
      = wraps (TreeNodeAPI.GetItemChildren x)
              (fst (h _ (TreeNodeAPI.GetItemChildren x) s)) /\
    TreeNodeAPI.trace h (TreeNode.getAncestors this) s
      = wraps (TreeNodeAPI.GetItemAncestors x)
              (fst (h _ (TreeNodeAPI.GetItemAncestors x) s)) /\
    TreeNodeAPI.trace h (TreeNode.getDescendants this depth) s
      = wraps (TreeNodeAPI.GetItemDescendants x depth)
              (fst (h _ (TreeNodeAPI.GetItemDescendants x depth) s)).
Proof.
  intros S h this s depth x wraps. subst x wraps. simpl.
  destruct (h _ (TreeNodeAPI.GetItemChildren (node_item this)) s) as [cs s1].
  destruct (h _ (TreeNodeAPI.GetItemAncestors (node_item this)) s) as [az s2].
  destruct (h _ (TreeNodeAPI.GetItemDescendants (node_item this) depth) s) as [ds s3].
  simpl. split_and!; f_equal; apply TraceFacts.trace_getTreeNodes.
Qed.

(** ** The life of a CDN loader *)

Module CDNLoaderLifeFacts.
Import CDNLoader CDNLoaderLife.

Ltac by_elements := set_unfold; intuition (subst; eauto; congruence).

Lemma separation_create : separation create.
Proof. split; simpl; intros *; by rewrite lookup_empty. Qed.

Lemma separation_step e this :
  invariant this -> separation this -> separation (step e this).
Proof.
  intros Hinv Hsep. destruct e as [src|prefix|q response|q err]; simpl.
  - destruct (decide (src = "")) as [->|Hsrc]; [done|].
    destruct (responseCache this !! src) as [p|] eqn:Hc.
    { by rewrite (CDNLoaderFacts.load_cached src p this Hsrc Hc). }
    rewrite (CDNLoaderFacts.load_fresh src this Hsrc Hc). split; simpl.
    + intros a b p. rewrite !lookup_insert. repeat case_decide; subst; try done.
      * intros [= <-] Hb. pose proof (inv_cache_old _ Hinv _ _ Hb). lia.
      * intros Ha [= <-]. pose proof (inv_cache_old _ Hinv _ _ Ha). lia.
      * apply Hsep.
    + intros p href. rewrite lookup_insert. case_decide.
      * intros _. subst p.
        destruct (settled this !! next_promise this) eqn:E; [|done].
        pose proof (inv_settled_old _ Hinv _ _ E). lia.
      * apply Hsep.
    + intros a p. rewrite lookup_insert. case_decide.
      * intros [= <-]. subst a. left. apply lookup_insert_eq.
      * intros Ha. pose proof (inv_cache_old _ Hinv _ _ Ha).
        rewrite lookup_insert_ne by lia. by apply Hsep.
  - by destruct Hsep.
  - unfold loadContent_fetched. destruct (fetching this !! q) as [href|] eqn:Hq; [|done].
    split; simpl.
    + apply Hsep.
    + intros p h. rewrite lookup_delete. case_decide; [done|]. intros Hp.
      rewrite lookup_insert_ne by done. by apply (sep_disjoint _ Hsep p h).
    + intros a p Ha. rewrite lookup_delete, lookup_insert.
      destruct (decide (q = p)) as [->|Hne].
      * right. split; [done|]. eauto.
      * by apply Hsep.
  - unfold loadContent_caught. destruct (fetching this !! q) as [href|] eqn:Hq; [|done].
    split; simpl.
    + intros a b p. rewrite !lookup_delete. repeat case_decide; try done. apply Hsep.
    + intros p h. rewrite lookup_delete. case_decide; [done|]. intros Hp.
      rewrite lookup_insert_ne by done. by apply (sep_disjoint _ Hsep p h).
    + intros a p. rewrite lookup_delete. case_decide as Ha; [done|]. intros Hp.
      rewrite lookup_delete, lookup_insert.
      destruct (decide (q = p)) as [->|Hne]; [|by apply Hsep].
      exfalso. apply Ha. pose proof (inv_fetching _ Hinv _ _ Hq) as Hc.
      by apply (sep_cache_inj _ Hsep href a p).
Qed.

Lemma reachable_separation this : reachable this -> separation this.
Proof.
  induction 1 as [|e this Hr IH]; [apply separation_create|].
  apply separation_step; [by apply CDNLoaderFacts.reachable_invariant|done].
Qed.

(** A settled promise keeps its response through any event. *)
Lemma settled_step e p r this :
  separation this -> settled this !! p = Some r -> settled (step e this) !! p = Some r.
Proof.
  intros Hsep Hp. destruct e as [src|prefix|q response|q err]; simpl.
  - destruct (decide (src = "")) as [->|Hsrc]; [done|].
    destruct (responseCache this !! src) as [p'|] eqn:Hc.
    + by rewrite (CDNLoaderFacts.load_cached src p' this Hsrc Hc).
    + by rewrite (CDNLoaderFacts.load_fresh src this Hsrc Hc).
  - done.
  - unfold loadContent_fetched. destruct (fetching this !! q) as [href|] eqn:Hq; [|done].
    simpl. rewrite lookup_insert_ne; [done|]. intros ->.
    pose proof (sep_disjoint _ Hsep _ _ Hq). congruence.
  - unfold loadContent_caught. destruct (fetching this !! q) as [href|] eqn:Hq; [|done].
    simpl. rewrite lookup_insert_ne; [done|]. intros ->.
    pose proof (sep_disjoint _ Hsep _ _ Hq). congruence.
Qed.

Lemma settled_run es : forall p r this,
  reachable this -> settled this !! p = Some r -> settled (run es this) !! p = Some r.
Proof.
  induction es as [|e es IH]; intros p r this Hreach Hp; [done|].
  simpl. apply IH; [by constructor|].
  apply settled_step; [by apply reachable_separation|done].
Qed.

Lemma retired_step e p this : retired p this -> retired p (step e this).
Proof.
  intros [Hold Hout]. destruct e as [src|prefix|q response|q err]; simpl.
  - destruct (decide (src = "")) as [->|Hsrc]; [done|].
    destruct (responseCache this !! src) as [p'|] eqn:Hc.
    + by rewrite (CDNLoaderFacts.load_cached src p' this Hsrc Hc).
    + rewrite (CDNLoaderFacts.load_fresh src this Hsrc Hc). split; simpl; [lia|].
      intros a. rewrite lookup_insert. case_decide; [|apply Hout].
      intros [= Heq]. lia.
  - done.
  - unfold loadContent_fetched. by destruct (fetching this !! q).
  - unfold loadContent_caught. destruct (fetching this !! q) as [href|]; [|done].
    split; simpl; [done|]. intros a. rewrite lookup_delete. case_decide; [done|apply Hout].
Qed.

Lemma retired_run es : forall p this, retired p this -> retired p (run es this).
Proof.
  induction es as [|e es IH]; intros p this Hp; [done|].
  simpl. by apply IH, retired_step.
Qed.

Lemma retired_by_throw p err href this :
  reachable this -> fetching this !! p = Some href ->
  retired p (step (FetchThrows p err) this).
Proof.
  intros Hreach Hp.
  pose proof (CDNLoaderFacts.reachable_invariant this Hreach) as Hinv.
  pose proof (reachable_separation this Hreach) as Hsep.
  simpl. unfold loadContent_caught. rewrite Hp. split; simpl.
  - by apply (inv_fetching_old _ Hinv p href).
  - intros a. rewrite lookup_delete. case_decide as Ha; [done|]. intros Hc.
    apply Ha. pose proof (inv_fetching _ Hinv _ _ Hp) as Hc'.
    by apply (sep_cache_inj _ Hsep href a p).
Qed.

Lemma load_result src this :
  fst (load_body src this) = responseCache (snd (load_body src this)) !! src \/ src = "".
Proof.
  destruct (decide (src = "")) as [->|Hsrc]; [by right|]. left.
  destruct (responseCache this !! src) as [p|] eqn:Hc.
  - by rewrite (CDNLoaderFacts.load_cached src p this Hsrc Hc).
  - rewrite (CDNLoaderFacts.load_fresh src this Hsrc Hc). simpl.
    by rewrite lookup_insert_eq.
Qed.

(** Without a failing fetch, one promise is made per address in the cache. *)
Lemma count_step e this :
  throws e = false ->
  next_promise this = size (responseCache this) ->
  next_promise (step e this) = size (responseCache (step e this)).
Proof.
  intros He Hcount. destruct e as [src|prefix|q response|q err]; simpl; [| | |done].
  - destruct (decide (src = "")) as [->|Hsrc]; [done|].
    destruct (responseCache this !! src) as [p|] eqn:Hc.
    + by rewrite (CDNLoaderFacts.load_cached src p this Hsrc Hc).
    + rewrite (CDNLoaderFacts.load_fresh src this Hsrc Hc). simpl.
      rewrite map_size_insert_None by done. by rewrite Hcount.
  - done.
  - unfold loadContent_fetched. by destruct (fetching this !! q).
Qed.

Lemma dom_step e this :
  throws e = false ->
  dom (responseCache (step e this)) = dom (responseCache this) ∪ loaded [e].
Proof.
  intros He. unfold loaded. destruct e as [src|prefix|q response|q err]; simpl; [| | |done].
  - destruct (decide (src = "")) as [->|Hsrc]; simpl; [by_elements|].
    pose proof Hsrc as Htruthy. apply JSFacts.truthy_string_true in Htruthy.
    rewrite Htruthy. simpl.
    destruct (responseCache this !! src) as [p|] eqn:Hc.
    + rewrite (CDNLoaderFacts.load_cached src p this Hsrc Hc).
      assert (src ∈ dom (responseCache this)) by (apply elem_of_dom; eauto).
      by_elements.
    + rewrite (CDNLoaderFacts.load_fresh src this Hsrc Hc). simpl.
      rewrite dom_insert_L. by_elements.
  - by_elements.
  - unfold loadContent_fetched. destruct (fetching this !! q); simpl; by_elements.
Qed.

Lemma loaded_cons e es : loaded (e :: es) = loaded [e] ∪ loaded es.
Proof.
  unfold loaded. simpl.
  destruct e as [src| | |]; simpl; try by_elements.
  destruct (JS.truthy_string src); simpl; by_elements.
Qed.

Lemma count_run es : forall this,
  forallb (fun e => negb (throws e)) es = true ->
  next_promise this = size (responseCache this) ->
  next_promise (run es this) = size (responseCache (run es this)) /\
  dom (responseCache (run es this)) = dom (responseCache this) ∪ loaded es.
Proof.
  induction es as [|e es IH]; intros this Hes Hcount; simpl.
  - split; [done|]. unfold loaded. simpl. by_elements.
  - simpl in Hes. apply andb_true_iff in Hes as [He Hes].
    apply negb_true_iff in He.
    destruct (IH (step e this) Hes (count_step e this He Hcount)) as [Hn Hd].
    split; [done|]. rewrite Hd, (dom_step e this He), (loaded_cons e es). by_elements.
Qed.

End CDNLoaderLifeFacts.

(** ** Loading an icon *)

Module UrlFacts.
Import Url.

Lemma same_letter_colon c : same_letter ":" c = true -> c = ":"%char.
Proof.
  destruct c as [[] [] [] [] [] [] [] []]; vm_compute; congruence.
Qed.

Lemma same_letter_h c : same_letter "h" c = true -> c = "h"%char \/ c = "H"%char.
Proof.
  destruct c as [[] [] [] [] [] [] [] []]; vm_compute; intros; try discriminate; tauto.
Qed.

Lemma literal_cons p pattern str rest :
  literal (String p pattern) str = Some rest ->
  exists c str', str = String c str' /\ same_letter p c = true /\
                 literal pattern str' = Some rest.
Proof.
  simpl. destruct str as [|c str']; [done|].
  destruct (same_letter p c) eqn:E; [|done]. eauto.
Qed.

Lemma matches_literal pattern str :
  matches pattern str = true -> exists rest, literal pattern str = Some rest.
Proof. unfold matches. destruct (literal pattern str); [eauto|done]. Qed.

(** A URL begins with [h] or [H] and has its colon in fifth or sixth place. *)
Lemma isUrl_shape str :
  isUrl str = true ->
  (String.get 0 str = Some "h"%char \/ String.get 0 str = Some "H"%char) /\
  (String.get 4 str = Some ":"%char \/ String.get 5 str = Some ":"%char).
Proof.
  unfold isUrl. destruct (literal "http" str) as [rest|] eqn:Hhttp; [|done].
  apply literal_cons in Hhttp as (c1 & s1 & -> & Hc1 & Hhttp).
  apply literal_cons in Hhttp as (c2 & s2 & -> & Hc2 & Hhttp).
  apply literal_cons in Hhttp as (c3 & s3 & -> & Hc3 & Hhttp).
  apply literal_cons in Hhttp as (c4 & s4 & -> & Hc4 & Hhttp).
  simpl in Hhttp. injection Hhttp as ->.
  intros Hrest. split.
  - simpl. destruct (same_letter_h c1 Hc1) as [->| ->]; tauto.
  - apply orb_true_iff in Hrest as [Hs|Hplain].
    + destruct (literal "s" rest) as [rest'|] eqn:Hsrest; [|done].
      apply literal_cons in Hsrest as (c5 & s5 & -> & Hc5 & Hsrest).
      simpl in Hsrest. injection Hsrest as ->.
      apply matches_literal in Hs as [r Hs].
      apply literal_cons in Hs as (c6 & s6 & -> & Hc6 & _).
      right. simpl. by rewrite (same_letter_colon c6 Hc6).
    + apply matches_literal in Hplain as [r Hplain].
      apply literal_cons in Hplain as (c5 & s5 & -> & Hc5 & _).
      left. simpl. by rewrite (same_letter_colon c5 Hc5).
Qed.

Lemma isUrl_nonempty str : isUrl str = true -> str <> "".
Proof. by intros H ->. Qed.

Lemma literal_app pattern : forall str rest more,
  literal pattern str = Some rest -> literal pattern (str +:+ more) = Some (rest +:+ more).
Proof.
  induction pattern as [|p pattern IH]; intros str rest more; simpl.
  - by intros [= ->].
  - destruct str as [|c str']; [done|]. simpl.
    destruct (same_letter p c); [apply IH|done].
Qed.

(** Whatever follows a URL, the whole is a URL. *)
Lemma isUrl_app str more : isUrl str = true -> isUrl (str +:+ more) = true.
Proof.
  unfold isUrl. destruct (literal "http" str) as [rest|] eqn:Hhttp; [|done].
  rewrite (literal_app _ _ _ more Hhttp). intros Hrest.
  apply orb_true_iff in Hrest as [Hs|Hplain]; apply orb_true_iff.
  - left. destruct (literal "s" rest) as [rest'|] eqn:Hsrest; [|done].
    rewrite (literal_app _ _ _ more Hsrest).
    apply matches_literal in Hs as [r Hs]. unfold matches.
    by rewrite (literal_app _ _ _ more Hs).
  - right. apply matches_literal in Hplain as [r Hplain]. unfold matches.
    by rewrite (literal_app _ _ _ more Hplain).
Qed.

Lemma same_letter_fold p c : same_letter p c = true <-> fold_case c = fold_case p.
Proof.
  unfold same_letter. rewrite Ascii.eqb_eq. split; congruence.
Qed.

(** Matching a pattern takes off a start of the string that is the pattern
    up to the case of letters. *)
Lemma literal_spec pattern : forall str rest,
  literal pattern str = Some rest <->
  exists start, str = start +:+ rest /\ lowercase start = lowercase pattern.
Proof.
  induction pattern as [|p pattern IH]; intros str rest; simpl.
  - split.
    + intros [= ->]. by exists "".
    + intros ([|c start] & -> & Hlow); [done|discriminate].
  - destruct str as [|c str'].
    + split; [done|]. intros ([|c start] & Heq & Hlow); discriminate.
    + destruct (same_letter p c) eqn:Hpc.
      * rewrite IH. apply same_letter_fold in Hpc. split.
        -- intros (start & -> & Hlow). exists (String c start). simpl.
           split; [done|]. by rewrite Hpc, Hlow.
        -- intros ([|c' start] & Heq & Hlow); [discriminate|].
           simpl in Heq, Hlow. injection Heq as -> ->. injection Hlow as _ Hlow.
           by exists start.
      * split; [done|]. intros ([|c' start] & Heq & Hlow); [discriminate|].
        simpl in Heq, Hlow. injection Heq as -> ->. injection Hlow as Hc _.
        apply same_letter_fold in Hc. congruence.
Qed.

Lemma literal_then p1 : forall p2 str,
  literal (p1 +:+ p2) str
  = match literal p1 str with Some rest => literal p2 rest | None => None end.
Proof.
  induction p1 as [|p p1 IH]; intros p2 str; simpl; [done|].
  destruct str as [|c str']; [done|]. destruct (same_letter p c); [apply IH|done].
Qed.

Lemma isUrl_alt str : isUrl str = matches "https://" str || matches "http://" str.
Proof.
  unfold isUrl, matches.
  change "https://" with ("http" +:+ "s" +:+ "://").
  change "http://" with ("http" +:+ "://").
  rewrite !literal_then.
  destruct (literal "http" str) as [rest|]; [|done].
  rewrite literal_then. by destruct (literal "s" rest).
Qed.

Lemma matches_spec pattern str :
  matches pattern str = true <->
  exists start rest, str = start +:+ rest /\ lowercase start = lowercase pattern.
Proof.
  unfold matches. split.
  - destruct (literal pattern str) as [rest|] eqn:H; [|done]. intros _.
    apply literal_spec in H as (start & -> & Hlow). by exists start, rest.
  - intros (start & rest & Heq & Hlow).
    assert (literal pattern str = Some rest) as -> by (apply literal_spec; eauto).
    done.
Qed.

End UrlFacts.

Module IconSVGFacts.
Import IconSVG.

Lemma svg_of_nonempty markup response :
  svg_of markup response <> "" ->
  exists r, response = Some r /\ status r = 200%Z /\
            contentType r = Some "image/svg+xml" /\
            svg_of markup response = markup (responseText r).
Proof.
  unfold svg_of. destruct response as [r|]; [|done].
  destruct (status r =? 200)%Z eqn:Hs; [|done].
  case_bool_decide as Hc; [|done]. simpl. intros _.
  exists r. apply Z.eqb_eq in Hs. by split_and!.
Qed.

Lemma getCdnPrefix_after_prefixes prefixes :
  IconLoader.getCdnPrefix (IconLoader.after_prefixes prefixes IconLoader.create)
  = match IconLoader.first_prefix prefixes with
    | Some prefix => Promise.Fulfilled prefix
    | None => Promise.Pending
    end.
Proof.
  pose proof (IconLoaderFacts.after_prefixes_first prefixes IconLoader.create eq_refl) as H.
  destruct (IconLoader.first_prefix prefixes) as [prefix|].
  - by destruct H.
  - by rewrite H.
Qed.

End IconSVGFacts.

(** ** What a handle asks of its manager *)

Module TreeNodeCallsFacts.
Import TreeNodeAPI TreeNodeCalls.

Lemma invoke_about o this :
  every_call (fun X c => wraps c = false -> about c = node_item this)
             (TreeNode.invoke o this).
Proof. destruct o; HandleFacts.member_calls; done. Qed.

Lemma invoke_reader o this :
  setter o = false ->
  every_call (fun X c => command c = false) (TreeNode.invoke o this).
Proof. destruct o; intros Ho; try discriminate Ho; HandleFacts.member_calls; done. Qed.

Lemma invoke_setter {S} (h : handler S) o this s :
  setter o = true ->
  exists c : Call unit,
    trace h (TreeNode.invoke o this) s = [existT _ c] /\
    command c = true /\ about c = node_item this.
Proof.
  destruct o; intros Ho; try discriminate Ho; simpl;
    unfold TreeNode.set_expanded, TreeNode.set_selected;
    try destruct value; simpl;
    match goal with
    | |- context [h unit ?c s] => exists c; by destruct (h unit c s)
    end.
Qed.


End TreeNodeCallsFacts.

(** ** The input maps of the fields *)

Module InputMapFacts.
Import InputMap.

Lemma insert_keys (m : t) (k : string) (v : JS.value) : dom (<[k := v]> m) = {[k]} ∪ dom m.
Proof. apply dom_insert_L. Qed.

End InputMapFacts.

(** X5: whatever the manager answers, every call a member of the handle
    makes is about the handle's own item, apart from the requests for the
    handles of the items the manager named; a member that is no setter (and
    not [rerender]) sends the manager no command; and a setter or [rerender]
    makes exactly one call, a command about the handle's own item. *)
Theorem X5_members_address_their_own_item :
  forall (o : TreeNode.member) (this : TreeNode),
    TreeNodeAPI.every_call
      (fun X c => TreeNodeCalls.wraps c = false ->
                  TreeNodeCalls.about c = node_item this)
      (TreeNode.invoke o this) /\
    (TreeNodeCalls.setter o = false ->
     TreeNodeAPI.every_call (fun X c => TreeNodeCalls.command c = false)
                            (TreeNode.invoke o this)) /\
    (TreeNodeCalls.setter o = true ->
     forall (S : Type) (h : TreeNodeAPI.handler S) (s : S),
     exists c : TreeNodeAPI.Call unit,
       TreeNodeAPI.trace h (TreeNode.invoke o this) s = [existT _ c] /\
       TreeNodeCalls.command c = true /\
       TreeNodeCalls.about c = node_item this).
Proof.
  intros o this. split_and!.
  - apply TreeNodeCallsFacts.invoke_about.
  - apply TreeNodeCallsFacts.invoke_reader.
  - intros Ho S h s. by apply TreeNodeCallsFacts.invoke_setter.
Qed.

(** X7: in a [CDNLoader] that can come about, no two addresses of the cache
    lead to the same promise, and the promise cached for an address is either
    the pending [loadContent] call for that very address or already settled. *)
Theorem X7_addresses_never_share_a_promise :
  forall (this : CDNLoader.t),
    CDNLoader.reachable this ->
    (forall src src' p,
        CDNLoader.responseCache this !! src = Some p ->
        CDNLoader.responseCache this !! src' = Some p ->
        src = src') /\
    (forall src p,
        CDNLoader.responseCache this !! src = Some p ->
        CDNLoader.fetching this !! p = Some src \/
        (CDNLoader.fetching this !! p = None /\
         is_Some (CDNLoader.settled this !! p))).
Proof.
  intros this Hreach.
  pose proof (CDNLoaderLifeFacts.reachable_separation this Hreach) as Hsep.
  split.
  - apply (CDNLoaderLife.sep_cache_inj _ Hsep).
  - apply (CDNLoaderLife.sep_cache_live _ Hsep).
Qed.

Lemma X7_addresses_never_share_a_promise_witness :
  let this :=
    CDNLoader.run
      [CDNLoader.CallLoad "a.svg"; CDNLoader.CallLoad "b.svg";
       CDNLoader.FetchFulfils 0 {| CDNLoader.status := 200; CDNLoader.statusText := "OK" |}]
      CDNLoader.create in
  CDNLoader.responseCache this !! "a.svg" = Some 0 /\
  forall src', CDNLoader.responseCache this !! src' = Some 0 -> "a.svg" = src'.
Proof.
  split; [reflexivity|].
  intros src'.
  apply (proj1
           (X7_addresses_never_share_a_promise
              (CDNLoader.run
                 [CDNLoader.CallLoad "a.svg"; CDNLoader.CallLoad "b.svg";
                  CDNLoader.FetchFulfils 0
                    {| CDNLoader.status := 200; CDNLoader.statusText := "OK" |}]
                 CDNLoader.create)
              (CDNLoaderFacts.reachable_run _ _ CDNLoader.reachable_create))
           "a.svg" src' 0).
  reflexivity.
Defined.

(** X8: once the fetch behind a promise of [CDNLoader.loadContent] has
    thrown, that promise is never handed out again: whatever happens later,
    no address of the cache leads to it and no [load] is resolved with it,
    while the promise itself keeps the status 0 response it was fulfilled
    with. *)
Theorem X8_failed_promise_is_never_served_again :
  forall (this : CDNLoader.t) (p : CDNLoader.promise) (href : string)
         (err : CDNLoader.thrown) (es : list CDNLoader.event) (src : string),
    CDNLoader.reachable this ->
    CDNLoader.fetching this !! p = Some href ->
    let later := CDNLoader.run es (CDNLoader.step (CDNLoader.FetchThrows p err) this) in
    fst (CDNLoader.load_body src later) <> Some p /\
    CDNLoader.responseCache later !! src <> Some p /\
    CDNLoader.settled later !! p
    = Some {| CDNLoader.status := 0;
              CDNLoader.statusText := CDNLoader.errorMessage err |}.
Proof.
  intros this p href err es src Hreach Hp later.
  pose proof (CDNLoaderLifeFacts.retired_by_throw p err href this Hreach Hp) as Hfailed.
  pose proof (CDNLoaderLifeFacts.retired_run es p _ Hfailed) as Hlater.
  fold later in Hlater. split_and!.
  - destruct (CDNLoaderLifeFacts.load_result src later) as [Hres| ->].
    + rewrite Hres.
      apply (CDNLoaderLifeFacts.retired_step (CDNLoader.CallLoad src) p later Hlater).
    + by rewrite CDNLoaderFacts.load_empty.
  - apply Hlater.
  - apply CDNLoaderLifeFacts.settled_run; [by constructor|].
    simpl. unfold CDNLoader.loadContent_caught. rewrite Hp. simpl.
    apply lookup_insert_eq.
Qed.

Lemma X8_failed_promise_is_never_served_again_witness :
  let this := snd (CDNLoader.load_body "icon.svg" CDNLoader.create) in
  let later :=
    CDNLoader.run [CDNLoader.CallLoad "icon.svg"; CDNLoader.CallLoad "other.svg"]
      (CDNLoader.step (CDNLoader.FetchThrows 0 (CDNLoader.ThrownError "Failed to fetch"))
         this) in
  fst (CDNLoader.load_body "icon.svg" later) <> Some 0 /\
  CDNLoader.responseCache later !! "icon.svg" <> Some 0 /\
  CDNLoader.settled later !! 0
  = Some {| CDNLoader.status := 0; CDNLoader.statusText := "Failed to fetch" |}.
Proof.
  apply (X8_failed_promise_is_never_served_again
           (snd (CDNLoader.load_body "icon.svg" CDNLoader.create)) 0 "icon.svg"
           (CDNLoader.ThrownError "Failed to fetch")
           [CDNLoader.CallLoad "icon.svg"; CDNLoader.CallLoad "other.svg"] "icon.svg").
  - apply (CDNLoader.reachable_step (CDNLoader.CallLoad "icon.svg")).
    apply CDNLoader.reachable_create.
  - reflexivity.
Defined.

(** X9: as long as no fetch fails, a [CDNLoader] has started exactly one
    [loadContent] call per address in its cache, and the addresses in its
    cache are the non-empty addresses [load] was called with, however often
    each was asked for. *)
Theorem X9_one_promise_per_address :
  forall (es : list CDNLoader.event),
    forallb (fun e => negb (CDNLoaderLife.throws e)) es = true ->
    let this := CDNLoader.run es CDNLoader.create in
    CDNLoader.next_promise this = size (CDNLoader.responseCache this) /\
    dom (CDNLoader.responseCache this) = CDNLoaderLife.loaded es.
Proof.
  intros es Hes this.
  destruct (CDNLoaderLifeFacts.count_run es CDNLoader.create Hes eq_refl) as [Hn Hd].
  split; [done|]. subst this. rewrite Hd. simpl.
  rewrite dom_empty_L. apply (left_id_L ∅ (∪)).
Qed.

Lemma X9_one_promise_per_address_witness :
  let this :=
    CDNLoader.run
      [CDNLoader.CallLoad "a.svg"; CDNLoader.CallLoad ""; CDNLoader.CallLoad "b.svg";
       CDNLoader.FetchFulfils 0 {| CDNLoader.status := 200; CDNLoader.statusText := "OK" |};
       CDNLoader.CallLoad "a.svg"; CDNLoader.CallSetCdnPrefix "https://cdn/"]
      CDNLoader.create in
  CDNLoader.next_promise this = size (CDNLoader.responseCache this) /\
  dom (CDNLoader.responseCache this)
  = CDNLoaderLife.loaded
      [CDNLoader.CallLoad "a.svg"; CDNLoader.CallLoad ""; CDNLoader.CallLoad "b.svg";
       CDNLoader.FetchFulfils 0 {| CDNLoader.status := 200; CDNLoader.statusText := "OK" |};
       CDNLoader.CallLoad "a.svg"; CDNLoader.CallSetCdnPrefix "https://cdn/"].
Proof.
  apply (X9_one_promise_per_address
           [CDNLoader.CallLoad "a.svg"; CDNLoader.CallLoad ""; CDNLoader.CallLoad "b.svg";
            CDNLoader.FetchFulfils 0
              {| CDNLoader.status := 200; CDNLoader.statusText := "OK" |};
            CDNLoader.CallLoad "a.svg"; CDNLoader.CallSetCdnPrefix "https://cdn/"]).
  reflexivity.
Defined.

(** X10: [isUrl] holds of exactly the strings that start with [http://] or
    [https://], in any mix of upper and lower case; it goes by the start of
    the string alone, so whatever follows a URL leaves it a URL; and a string
    without a colon is never a URL. *)
Theorem X10_isUrl_is_the_scheme_test :
  forall (str : string),
    (Url.isUrl str = true <->
     exists scheme rest,
       str = scheme +:+ rest /\
       (Url.lowercase scheme = "http://" \/ Url.lowercase scheme = "https://")) /\
    (Url.isUrl str = true -> forall more, Url.isUrl (str +:+ more) = true) /\
    ((forall n, String.get n str <> Some ":"%char) -> Url.isUrl str = false).
Proof.
  intros str. split_and!.
  - rewrite UrlFacts.isUrl_alt, orb_true_iff, !UrlFacts.matches_spec. split.
    + intros [(scheme & rest & Heq & Hlow)|(scheme & rest & Heq & Hlow)];
        exists scheme, rest; tauto.
    + intros (scheme & rest & Heq & [Hlow|Hlow]); [right|left]; by exists scheme, rest.
  - intros Hurl more. by apply UrlFacts.isUrl_app.
  - intros Hcolon. destruct (Url.isUrl str) eqn:Hurl; [|done].
    destruct (UrlFacts.isUrl_shape str Hurl) as [_ [H4|H5]]; by edestruct Hcolon.
Qed.

(** X11: [IconLoader.loadSVG] of the empty icon resolves with undefined at
    once.  A URL is loaded as it is, whatever the state of the CDN prefix.
    Any other icon waits for the prefix and is then loaded from the prefix
    followed by the icon and [.svg]; so for a loader that has only seen calls
    of [setCdnPrefix], it is loaded from the first non-empty prefix given,
    and stays pending when none was. *)
Theorem X11_loadSVG_address :
  forall (load : string -> Promise.state (option IconSVG.Request))
         (markup : string -> string) (this : IconLoader.t) (icon : string),
    let fetch address :=
      IconSVG.await (load address)
        (fun response => Promise.Fulfilled (Some (IconSVG.svg_of markup response))) in
    IconSVG.loadSVG load markup "" this = Promise.Fulfilled None /\
    (Url.isUrl icon = true -> IconSVG.loadSVG load markup icon this = fetch icon) /\
    (icon <> "" -> Url.isUrl icon = false ->
     IconSVG.loadSVG load markup icon this =
       match IconLoader.getCdnPrefix this with
       | Promise.Pending => Promise.Pending
       | Promise.Fulfilled prefix => fetch (prefix +:+ icon +:+ ".svg")
       | Promise.Rejected reason => Promise.Rejected reason
       end) /\
    (icon <> "" -> Url.isUrl icon = false ->
     forall prefixes,
       IconSVG.loadSVG load markup icon
         (IconLoader.after_prefixes prefixes IconLoader.create) =
       match IconLoader.first_prefix prefixes with
       | Some prefix => fetch (prefix +:+ icon +:+ ".svg")
       | None => Promise.Pending
       end).
Proof.
  intros load markup this icon fetch.
  assert (forall l, icon <> "" -> Url.isUrl icon = false ->
     IconSVG.loadSVG load markup icon l =
       match IconLoader.getCdnPrefix l with
       | Promise.Pending => Promise.Pending
       | Promise.Fulfilled prefix => fetch (prefix +:+ icon +:+ ".svg")
       | Promise.Rejected reason => Promise.Rejected reason
       end) as Hname.
  { intros l Hne Hurl. unfold IconSVG.loadSVG, IconLoader.getSrc.
    apply JSFacts.truthy_string_true in Hne. rewrite Hne, Hurl. simpl.
    by destruct (IconLoader.getCdnPrefix l). }
  split_and!.
  - reflexivity.
  - intros Hurl. unfold IconSVG.loadSVG.
    pose proof (UrlFacts.isUrl_nonempty icon Hurl) as Hne.
    apply JSFacts.truthy_string_true in Hne. by rewrite Hne, Hurl.
  - apply Hname.
  - intros Hne Hurl prefixes. rewrite (Hname _ Hne Hurl).
    rewrite IconSVGFacts.getCdnPrefix_after_prefixes.
    by destruct (IconLoader.first_prefix prefixes).
Qed.

(** X12: for a non-empty icon, [IconLoader.loadSVG] never resolves with
    undefined: when it resolves, [load] has resolved for the address of the
    icon and the result is a string.  When [load] gives a request of status
    200 whose content type is exactly [image/svg+xml], that string is the
    markup made from the response text; for any other request, and for
    undefined, it is the empty string; so a non-empty result is always such
    markup.  A rejection of [load] for the address of the icon rejects
    [loadSVG] with the same reason. *)
Theorem X12_loadSVG_outcome :
  forall (load : string -> Promise.state (option IconSVG.Request))
         (markup : string -> string) (this : IconLoader.t) (icon : string),
    icon <> "" ->
    let address :=
      if Url.isUrl icon then Promise.Fulfilled icon else IconLoader.getSrc icon this in
    let result := IconSVG.loadSVG load markup icon this in
    (forall v,
        result = Promise.Fulfilled v ->
        exists a response body,
          address = Promise.Fulfilled a /\
          load a = Promise.Fulfilled response /\
          v = Some body) /\
    (forall a r,
        address = Promise.Fulfilled a ->
        load a = Promise.Fulfilled (Some r) ->
        IconSVG.status r = 200%Z ->
        IconSVG.contentType r = Some "image/svg+xml" ->
        result = Promise.Fulfilled (Some (markup (IconSVG.responseText r)))) /\
    (forall a r,
        address = Promise.Fulfilled a ->
        load a = Promise.Fulfilled (Some r) ->
        IconSVG.status r <> 200%Z \/ IconSVG.contentType r <> Some "image/svg+xml" ->
        result = Promise.Fulfilled (Some "")) /\
    (forall a,
        address = Promise.Fulfilled a ->
        load a = Promise.Fulfilled None ->
        result = Promise.Fulfilled (Some "")) /\
    (forall body,
        result = Promise.Fulfilled (Some body) -> body <> "" ->
        exists a r,
          address = Promise.Fulfilled a /\
          load a = Promise.Fulfilled (Some r) /\
          IconSVG.status r = 200%Z /\
          IconSVG.contentType r = Some "image/svg+xml" /\
          body = markup (IconSVG.responseText r)) /\
    (forall a reason,
        address = Promise.Fulfilled a ->
        load a = Promise.Rejected reason ->
        result = Promise.Rejected reason).
Proof.
  intros load markup this icon Hne address result.
  assert (result
          = IconSVG.await address
              (fun a => IconSVG.await (load a)
                 (fun response =>
                    Promise.Fulfilled (Some (IconSVG.svg_of markup response))))) as Hbody.
  { unfold result, IconSVG.loadSVG, address.
    apply JSFacts.truthy_string_true in Hne. rewrite Hne.
    by destruct (Url.isUrl icon). }
  split_and!.
  - intros v. rewrite Hbody. destruct address as [|a|r]; simpl; [done| |done].
    destruct (load a) as [|response|r] eqn:Hload; simpl; [done| |done].
    intros [= <-]. by exists a, response, (IconSVG.svg_of markup response).
  - intros a r Ha Hload Hstatus Htype. rewrite Hbody, Ha. simpl. rewrite Hload. simpl.
    rewrite Hstatus. simpl. case_bool_decide; [done|congruence].
  - intros a r Ha Hload Hother. rewrite Hbody, Ha. simpl. rewrite Hload. simpl.
    destruct Hother as [Hstatus|Htype].
    + apply Z.eqb_neq in Hstatus. by rewrite Hstatus.
    + case_bool_decide; [done|]. by rewrite andb_false_r.
  - intros a Ha Hload. rewrite Hbody, Ha. simpl. by rewrite Hload.
  - intros body. rewrite Hbody. destruct address as [|a|r]; simpl; [done| |done].
    destruct (load a) as [|response|r] eqn:Hload; simpl; [done| |done].
    intros [= <-] Hnonempty.
    destruct (IconSVGFacts.svg_of_nonempty markup response Hnonempty)
      as (r & -> & Hstatus & Htype & Hmarkup).
    by exists a, r.
  - intros a reason Ha Hload. rewrite Hbody, Ha. simpl. by rewrite Hload.
Qed.

Lemma X12_loadSVG_outcome_witness :
  let load (address : string) : Promise.state (option IconSVG.Request) :=
    if String.eqb address "https://cdn.io/icons/tick.svg"
    then Promise.Fulfilled
           (Some {| IconSVG.status := 200;
                    IconSVG.contentType := Some "image/svg+xml";
                    IconSVG.responseText := "<svg><path/></svg>" |})
    else Promise.Fulfilled
           (Some {| IconSVG.status := 404;
                    IconSVG.contentType := Some "text/html";
                    IconSVG.responseText := "Not Found" |}) in
  let markup (text : string) : string := "<!--clean-->" +:+ text in
  let this := IconLoader.setCdnPrefix "https://cdn.io/icons/" IconLoader.create in
  "tick" <> "" /\
  IconSVG.loadSVG load markup "tick" this
  = Promise.Fulfilled (Some "<!--clean--><svg><path/></svg>") /\
  IconSVG.loadSVG load markup "cross" this = Promise.Fulfilled (Some "").
Proof.
  intros load markup this. split_and!.
  - discriminate.
  - apply (proj1 (proj2 (X12_loadSVG_outcome load markup this "tick" ltac:(discriminate)))
             "https://cdn.io/icons/tick.svg"
             {| IconSVG.status := 200;
                IconSVG.contentType := Some "image/svg+xml";
                IconSVG.responseText := "<svg><path/></svg>" |});
      reflexivity.
  - apply (proj1 (proj2 (proj2
             (X12_loadSVG_outcome load markup this "cross" ltac:(discriminate))))
             "https://cdn.io/icons/cross.svg"
             {| IconSVG.status := 404;
                IconSVG.contentType := Some "text/html";
                IconSVG.responseText := "Not Found" |});
      [reflexivity|reflexivity|left; discriminate].
Defined.

(** X13: in the input map of [EmailField] the entries [type], [inputmode],
    [multiple] and [pattern] are the field's own, whatever the inherited map
    holds for them, every other inherited entry is passed on, and no other
    entry is added; the same holds of [SearchField] with [type] and
    [inputmode]. *)
Theorem X13_decorateInputMap_overrides :
  forall (super : InputMap.t) (this : EmailField.t),
    let email := InputMap.EmailField_decorateInputMap super this in
    let search := InputMap.SearchField_decorateInputMap super in
    email !! "type" = Some (JS.str "email") /\
    email !! "inputmode" = Some (JS.str "email") /\
    email !! "multiple" = Some (JS.bool (EmailField.multiple this)) /\
    email !! "pattern" = Some (EmailField.pattern this) /\
    (forall key, key ∉ ["type"; "inputmode"; "multiple"; "pattern"] ->
                 email !! key = super !! key) /\
    dom email = {["type"; "inputmode"; "multiple"; "pattern"]} ∪ dom super /\
    search !! "type" = Some (JS.str "search") /\
    search !! "inputmode" = Some (JS.str "search") /\
    (forall key, key ∉ ["type"; "inputmode"] -> search !! key = super !! key) /\
    dom search = {["type"; "inputmode"]} ∪ dom super.
Proof.
  intros super this email search. subst email search.
  unfold InputMap.EmailField_decorateInputMap, InputMap.SearchField_decorateInputMap,
    InputMap.t in *.
  split_and!.
  - rewrite !lookup_insert_ne by done. apply lookup_insert_eq.
  - rewrite !lookup_insert_ne by done. apply lookup_insert_eq.
  - rewrite lookup_insert_ne by done. apply lookup_insert_eq.
  - apply lookup_insert_eq.
  - intros key Hkey. rewrite !not_elem_of_cons in Hkey.
    destruct Hkey as (? & ? & ? & ? & _). by rewrite !lookup_insert_ne by done.
  - rewrite !InputMapFacts.insert_keys. set_unfold. intros x. tauto.
  - rewrite lookup_insert_ne by done. apply lookup_insert_eq.
  - apply lookup_insert_eq.
  - intros key Hkey. rewrite !not_elem_of_cons in Hkey.
    destruct Hkey as (? & ? & _). by rewrite !lookup_insert_ne by done.
  - rewrite !InputMapFacts.insert_keys. set_unfold. intros x. tauto.
Qed.


(** ** Scenarios of icon loading *)

Example isUrl_samples :
  map Url.isUrl
    ["https://cdn.io/a.svg"; "HTTP://cdn.io/a.svg"; "hTTps://"; "//cdn.io/a.svg";
     "/icons/a.svg"; "ftp://cdn.io/a.svg"; "httpss://cdn.io"; " http://cdn.io"; "tick"]
  = [true; true; true; false; false; false; false; false; false].
Proof. reflexivity. Qed.

(** An address that is no URL is taken for an icon name, even when it is a
    path. *)
Example scenario_path_is_a_name :
  let load (address : string) : Promise.state (option IconSVG.Request) :=
    Promise.Fulfilled
      (Some {| IconSVG.status := 200; IconSVG.contentType := Some "image/svg+xml";
               IconSVG.responseText := address |}) in
  let this := IconLoader.setCdnPrefix "https://cdn.io/" IconLoader.create in
  IconSVG.loadSVG load (fun text => text) "/icons/tick.svg" this
  = Promise.Fulfilled (Some "https://cdn.io//icons/tick.svg.svg") /\
  IconSVG.loadSVG load (fun text => text) "https://x.io/tick.svg" this
  = Promise.Fulfilled (Some "https://x.io/tick.svg") /\
  IconSVG.loadSVG load (fun text => text) "tick" IconLoader.create = Promise.Pending.
Proof. by vm_compute. Qed.

(** A content type with a parameter is not taken for an SVG. *)
Example scenario_content_type_with_charset :
  let load (address : string) : Promise.state (option IconSVG.Request) :=
    Promise.Fulfilled
      (Some {| IconSVG.status := 200;
               IconSVG.contentType := Some "image/svg+xml; charset=utf-8";
               IconSVG.responseText := "<svg></svg>" |}) in
  IconSVG.loadSVG load (fun text => text) "https://x.io/tick.svg" IconLoader.create
  = Promise.Fulfilled (Some "").
Proof. by vm_compute. Qed.
